(** * Duke.py: crawl-and-download pipeline

    A shallow embedding of [src/Duke.py] (the Termux media scraper) and the
    properties of its traversal, worker pool and manifest writer.

    Conventions of the embedding:
    - Python [int] is [Z]; Python [str] is [string] (a byte string: case
      folding is the ASCII one).
    - Python [set] and [dict] are stdpp's [gset] and [gmap]; iterating over a
      set is iterating over [elements], whose order is fixed but unspecified,
      as Python's is.
    - The network, the HTML parser and [urllib.parse] are outside the
      program: they are variables of the sections below.  A parsed page is
      the list of its tags in document order, which is what [find_all]
      enumerates.
    - An exception is a [None]; the [try] blocks of the program are the
      places where a [None] is turned into a return.
    - Python [float] is binary64.  The only floats of the program are the
      quotients [int / 1024]: a float is the rational it denotes, the
      division rounds to 53 significant bits and raises when the result is
      out of range.
    - The traversal runs in one thread and is a function on its state; the
      download threads are a step relation whose steps are the queue
      operations, each iteration of a worker being one step. *)

From Stdlib Require Import ZArith QArith String Ascii List Lia.
From stdpp Require Import base gmap strings list fin_maps fin_sets pretty.

Local Open Scope Z_scope.

(** ** Strings: the [str] methods the program calls *)

Module PyStr.

(** [c.lower()] on one ASCII character. *)
Definition lower_ascii (c : ascii) : ascii :=
  let n := nat_of_ascii c in
  if ((65 <=? n)%nat && (n <=? 90)%nat)%bool then ascii_of_nat (n + 32) else c.

(** [s.lower()] *)
Fixpoint lower (s : string) : string :=
  match s with
  | EmptyString => EmptyString
  | String c s' => String (lower_ascii c) (lower s')
  end.

(** [s.endswith(suffix)] *)
Definition endswith (s suffix : string) : bool :=
  let n := String.length s in
  let k := String.length suffix in
  ((k <=? n)%nat && String.eqb (substring (n - k) k s) suffix)%bool.

(** [c in s] for a character [c]. *)
Fixpoint contains (c : ascii) (s : string) : bool :=
  match s with
  | EmptyString => false
  | String d s' => (Ascii.eqb c d || contains c s')%bool
  end.

(** [s.rfind(c)]: the index of the last [c], as [Some i], or [None] where
    Python answers -1. *)
Fixpoint rfind (c : ascii) (s : string) : option nat :=
  match s with
  | EmptyString => None
  | String d s' =>
      match rfind c s' with
      | Some i => Some (S i)
      | None => if Ascii.eqb c d then Some O else None
      end
  end.

(** [s[i:]] *)
Definition from (i : nat) (s : string) : string :=
  substring i (String.length s - i) s.

(** [bool(s)] *)
Definition truthy (s : string) : bool := negb (String.eqb s "").

End PyStr.

(** ** [os.path] on POSIX *)

Module OsPath.

(** [os.path.basename(p)]: what follows the last slash. *)
Definition basename (p : string) : string :=
  match PyStr.rfind "/" p with
  | Some i => PyStr.from (S i) p
  | None => p
  end.

(** The loop of [genericpath._splitext] that skips the leading dots of the
    last component: is there a character other than a dot in
    [p[filenameIndex:dotIndex]]? *)
Fixpoint has_non_dot (p : string) (filenameIndex count : nat) : bool :=
  match count with
  | O => false
  | S count' =>
      if String.eqb (substring filenameIndex 1 p) "." then
        has_non_dot p (S filenameIndex) count'
      else true
  end.

(** [os.path.splitext(p)[1]] *)
Definition splitext_ext (p : string) : string :=
  match PyStr.rfind "." p with
  | None => ""
  | Some dotIndex =>
      let filenameIndex :=
        match PyStr.rfind "/" p with Some sepIndex => S sepIndex | None => O end in
      if ((filenameIndex <=? dotIndex)%nat &&
          has_non_dot p filenameIndex (dotIndex - filenameIndex))%bool
      then PyStr.from dotIndex p
      else ""
  end.

End OsPath.

(** ** Media types and the module-level constants *)

Inductive media_type := Images | Videos | Audio | Documents.

Global Instance media_type_eq_dec : EqDecision media_type.
Proof. solve_decision. Defined.

Definition media_type_code (m : media_type) : nat :=
  match m with Images => 0 | Videos => 1 | Audio => 2 | Documents => 3 end.

Definition media_type_of_code (n : nat) : media_type :=
  match n with
  | O => Images | S O => Videos | S (S O) => Audio | _ => Documents
  end.

Global Instance media_type_countable : Countable media_type.
Proof.
  apply (inj_countable' media_type_code media_type_of_code).
  by intros [].
Defined.

(** The dictionary key of a media type, also the name of its folder. *)
Definition media_type_name (m : media_type) : string :=
  match m with
  | Images => "images" | Videos => "videos"
  | Audio => "audio" | Documents => "documents"
  end.

Definition MEDIA_EXTENSIONS (m : media_type) : list string :=
  match m with
  | Images => [".jpg"; ".jpeg"; ".png"; ".gif"; ".webp"; ".svg"]
  | Videos => [".mp4"; ".webm"]
  | Audio => [".mp3"; ".ogg"; ".wav"]
  | Documents => [".pdf"; ".epub"; ".docx"; ".txt"]
  end.

Definition MAX_THREADS : Z := 8.

(** [is_media_file(url, extensions)] *)
Definition is_media_file (url : string) (extensions : list string) : bool :=
  existsb (fun ext => PyStr.endswith (PyStr.lower url) ext) extensions.

(** ** Parsed pages *)

(** A tag of the parsed document: its name and its attribute dictionary. *)
Record tag := Tag { tag_name : string; tag_attrs : gmap string string }.

(** The parsed document, as the list of its tags in document order. *)
Definition soup := list tag.

(** [soup.find_all(names)] *)
Definition find_all (names : list string) (page : soup) : list tag :=
  filter (fun t => tag_name t ∈ names) page.

(** [soup.find_all('a', href=True)] *)
Definition find_all_a_href (page : soup) : list tag :=
  filter (fun t => tag_name t = "a" ∧ is_Some (tag_attrs t !! "href")) page.

(** [tag.get(attr)] followed by the test [if src:] *)
Definition get_truthy (t : tag) (attr : string) : option string :=
  match tag_attrs t !! attr with
  | Some v => if PyStr.truthy v then Some v else None
  | None => None
  end.

(** ** The extractors *)

Section Extractors.

(** [urllib.parse.urljoin], [None] where it raises [ValueError] on a
    malformed reference, and [urllib.parse.urlparse(_).netloc]. *)
Variable urljoin : string -> string -> option string.
Variable netloc : string -> string.

(** [links.add(urljoin(base_url, src))] *)
Definition add_joined (base_url src : string) (links : gset string)
    : option (gset string) :=
  match urljoin base_url src with
  | Some full_url => Some ({[ full_url ]} ∪ links)
  | None => None
  end.

(** The body of the images loop, for one attribute of one tag. *)
Definition add_image (base_url : string) (t : tag) (links : gset string)
    (attr : string) : option (gset string) :=
  match get_truthy t attr with
  | Some src => add_joined base_url src links
  | None => Some links
  end.

(** The body of the videos and audio loop, for one tag. *)
Definition add_source (base_url : string) (links : gset string) (t : tag)
    : option (gset string) :=
  match get_truthy t "src" with
  | Some src => add_joined base_url src links
  | None => Some links
  end.

(** The body of the documents loop, for one tag. *)
Definition add_document (base_url : string) (links : gset string) (t : tag)
    : option (gset string) :=
  match tag_attrs t !! "href" with
  | Some href =>
      if is_media_file href (MEDIA_EXTENSIONS Documents)
      then add_joined base_url href links
      else Some links
  | None => Some links
  end.

(** [extract_media_links]: [None] when a call of [urljoin] raises. *)
Definition extract_media_links (page : soup) (base_url : string)
    (mtype : media_type) : option (gset string) :=
  match mtype with
  | Images =>
      foldl (fun acc t =>
               foldl (fun acc attr => links ← acc; add_image base_url t links attr)
                     acc ["src"; "data-src"; "content"])
            (Some ∅) (find_all ["img"; "source"; "meta"] page)
  | Videos | Audio =>
      foldl (fun acc t => links ← acc; add_source base_url links t)
            (Some ∅) (find_all ["video"; "audio"; "source"] page)
  | Documents =>
      foldl (fun acc t => links ← acc; add_document base_url links t)
            (Some ∅) (find_all_a_href page)
  end.

(** The body of the loop of [extract_links], for one tag. *)
Definition add_link (base_url : string) (same_domain : bool)
    (links : gset string) (t : tag) : option (gset string) :=
  let base_domain := netloc base_url in
  match tag_attrs t !! "href" with
  | Some href =>
      full_url ← urljoin base_url href;
      if (same_domain &&
          negb (String.eqb (netloc full_url) base_domain))%bool
      then Some links
      else Some ({[ full_url ]} ∪ links)
  | None => Some links
  end.

(** [extract_links]: [None] when a call of [urljoin] raises. *)
Definition extract_links (page : soup) (base_url : string)
    (same_domain : bool) : option (gset string) :=
  foldl (fun acc t => links ← acc; add_link base_url same_domain links t)
        (Some ∅) (find_all_a_href page).

End Extractors.

(** ** The traversal *)

(** An entry of [download_queue]: [(url, mtype, source_url)]. *)
Record queue_item := QueueItem {
  item_url : string;
  item_type : media_type;
  item_source : string
}.

(** One call of [get_page_content] by [crawl]: the URL requested, the depth
    of the call, whether the page was fetched and parsed, and the contents
    of [visited_urls] right after the call was handled. *)
Record fetch_event := FetchEvent {
  ev_url : string;
  ev_depth : Z;
  ev_ok : bool;
  ev_visited : gset string
}.

(** The module-level state [crawl] works on, and the log of its fetches. *)
Record crawl_state := CrawlState {
  visited_urls : gset string;
  download_queue : list queue_item;
  fetch_log : list fetch_event
}.

Definition initial_state : crawl_state :=
  {| visited_urls := ∅; download_queue := []; fetch_log := [] |}.

(** [download_queue.put(item)] *)
Definition put (item : queue_item) (st : crawl_state) : crawl_state :=
  {| visited_urls := visited_urls st;
     download_queue := download_queue st ++ [item];
     fetch_log := fetch_log st |}.

(** The fetch failed: the exception handler of [crawl] prints and returns. *)
Definition fetch_failed (url : string) (depth : Z) (st : crawl_state) : crawl_state :=
  {| visited_urls := visited_urls st;
     download_queue := download_queue st;
     fetch_log := fetch_log st ++ [FetchEvent url depth false (visited_urls st)] |}.

(** The fetch succeeded: [visited_urls.add(url)]. *)
Definition fetch_succeeded (url : string) (depth : Z) (st : crawl_state) : crawl_state :=
  let visited := {[ url ]} ∪ visited_urls st in
  {| visited_urls := visited;
     download_queue := download_queue st;
     fetch_log := fetch_log st ++ [FetchEvent url depth true visited] |}.

Section Crawl.

Variable urljoin : string -> string -> option string.
Variable netloc : string -> string.

(** [get_page_content(url)] followed by the parse: [None] when either
    raises. *)
Variable get_page_content : string -> option soup.

(** The arguments [crawl] passes on unchanged. *)
Variable media_types : list media_type.
Variable max_depth max_pages : Z.
Variable same_domain : bool.

(** The test at the head of [crawl]. *)
Definition crawl_guard (url : string) (current_depth : Z) (st : crawl_state) : bool :=
  (bool_decide (url ∈ visited_urls st)
   || (max_depth <? current_depth)%Z
   || (max_pages <=? Z.of_nat (size (visited_urls st)))%Z)%bool.

(** The body of the loop that queues the media of a fetched page, for one
    type: with the state goes whether the loop still runs, [false] once
    [extract_media_links] has raised. *)
Definition enqueue_type (page : soup) (url : string)
    (acc : crawl_state * bool) (mtype : media_type) : crawl_state * bool :=
  match acc with
  | (st, false) => (st, false)
  | (st, true) =>
      match extract_media_links urljoin page url mtype with
      | Some links =>
          (foldl (fun st link => put (QueueItem link mtype url) st)
                 st (elements links), true)
      | None => (st, false)
      end
  end.

(** [for mtype in media_types: ...] *)
Definition enqueue_media (page : soup) (url : string) (st : crawl_state)
    : crawl_state * bool :=
  foldl (enqueue_type page url) (st, true) media_types.

(** [crawl], with the number of nested calls still allowed: [None] only
    when that number runs out.  An exception in the body is caught by the
    handler of the call it occurs in, which prints and returns. *)
Fixpoint crawl (fuel : nat) (url : string) (current_depth : Z)
    (st : crawl_state) : option crawl_state :=
  match fuel with
  | O => None
  | S fuel' =>
      if crawl_guard url current_depth st then Some st
      else
        match get_page_content url with
        | None => Some (fetch_failed url current_depth st)
        | Some page =>
            let st := fetch_succeeded url current_depth st in
            match enqueue_media page url st with
            | (st, false) => Some st
            | (st, true) =>
                match extract_links urljoin netloc page url same_domain with
                | None => Some st
                | Some links =>
                    foldl (fun acc link =>
                             match acc with
                             | Some st => crawl fuel' link (current_depth + 1) st
                             | None => None
                             end)
                          (Some st) (elements links)
                end
            end
        end
  end.

(** Nested calls a call at [current_depth] can need. *)
Definition crawl_fuel (current_depth : Z) : nat :=
  S (Z.to_nat (max_depth + 1 - current_depth)).

(** The call of [main]: [crawl(url, ...)] at depth 0 on the initial state. *)
Definition crawl_from (url : string) : option crawl_state :=
  crawl (crawl_fuel 0) url 0 initial_state.

(** [link] is reachable from [seed] by following [n] links of fetched
    pages, each link being one [extract_links] keeps. *)
Inductive link_path (seed : string) : string -> Z -> Prop :=
| link_path_seed : link_path seed seed 0
| link_path_step url n page links link :
    link_path seed url n ->
    get_page_content url = Some page ->
    extract_links urljoin netloc page url same_domain = Some links ->
    link ∈ links ->
    link_path seed link (n + 1).

End Crawl.

(** ** The download workers *)

(** An entry of [downloaded_media]. *)
Record download_record := DownloadRecord {
  rec_url : string;
  rec_type : media_type;
  rec_size_kb : Z;
  rec_filename : string;
  rec_source_page : string
}.

(** What is at a path of the output directory.  The manifest files are kept
    structured: the list [json.dump] is given, the rows [csv.DictWriter]
    is given, the members of the archive. *)
#[warnings="-register-all"]
Inductive file :=
| FileBytes (data : string)
| FileJson (records : list download_record)
| FileCsv (rows : list (list string))
| FileZip (members : gmap (list string) file).

(** The files below [save_dir], by their path relative to it. *)
Abbreviation filesystem := (gmap (list string) file).

(** The [Content-Length] header of a response: missing, a string [int]
    reads as [n], or a string [int] rejects. *)
Inductive header_value := HeaderAbsent | HeaderInt (n : Z) | HeaderJunk.

(** The response of the streaming [requests.get]. *)
Record response := Response {
  content_length : header_value;
  content : string
}.

(** How the part of an iteration after the size test goes, from the choice
    of the file name to the end of the [with open] block: it completes, or
    it raises, leaving nothing or a truncated file behind. *)
Inductive write_outcome :=
| WriteCompletes
| WriteRaises (left_behind : option string).

(** What the outside world does during one iteration of a worker:
    [None] for the response when [requests.get] or [raise_for_status]
    raises; the number [random.randint(1000, 9999)] would return. *)
Record item_env := ItemEnv {
  env_response : option response;
  env_randint : Z;
  env_write : write_outcome
}.

(** Where a worker is in its [while] loop. *)
Inductive worker_phase :=
| AtLoopTest   (* about to evaluate [download_queue.empty()] *)
| AtGet        (* found the queue non-empty, about to call [get()] *)
| Exited.

Global Instance worker_phase_eq_dec : EqDecision worker_phase.
Proof. solve_decision. Defined.

(** A worker thread: its local dictionary [media_count] and its position. *)
Record worker := Worker {
  media_count : gmap media_type Z;
  phase : worker_phase
}.

(** What the workers share, and the workers. *)
Record pool_state := PoolState {
  queue : list queue_item;
  downloaded_media : list download_record;
  files : filesystem;
  workers : list worker
}.

(** ** Floats *)

(** Python's [float] is the IEEE 754 binary64 format: 53 significant bits,
    finite values below [2^1024] in absolute value.  The only floats of the
    program are quotients of an [int] by 1024; a float is kept as the
    rational it denotes. *)
Module PyFloat.

(** [a / 2^k] rounded to the nearest integer, a tie to the even one, for
    [0 <= a] and [0 < k]. *)
Definition round_half_even (a k : Z) : Z :=
  let q := Z.shiftr a k in
  let rest := Z.land a (Z.ones k) in
  let half := Z.shiftl 1 (k - 1) in
  if ((half <? rest) || ((rest =? half) && Z.odd q))%bool then q + 1 else q.

(** [0 <= a] rounded to 53 significant bits: an integer of at most 53 bits
    is kept, a longer one loses its [a.bit_length() - 53] low bits. *)
Definition round_53 (a : Z) : Z :=
  let excess := Z.log2 a + 1 - 53 in
  if excess <=? 0 then a else Z.shiftl (round_half_even a excess) excess.

(** [n] rounded to 53 significant bits, the sign kept. *)
Definition nearest (n : Z) : Z := Z.sgn n * round_53 (Z.abs n).

(** [n / 1024] for an [int] [n].  True division of two [int]s gives the
    float nearest to the exact quotient, a tie to the even significand; the
    divisor being a power of two, that is [n] rounded to 53 significant
    bits, over 1024.  [None] when the rounded quotient reaches [2^1024]:
    [OverflowError]. *)
Definition div_1024 (n : Z) : option Q :=
  let m := nearest n in
  if 2 ^ 1034 <=? Z.abs m then None else Some (m # 1024).

End PyFloat.

(** [int(x)] for a float [x]: truncation towards zero. *)
Definition int_of_Q (x : Q) : Z := Z.quot (Qnum x) (Zpos (Qden x)).

(** [d.get(k, 0)] *)
Definition get0 (d : gmap media_type Z) (k : media_type) : Z := default 0 (d !! k).

Section Worker.

(** [urllib.parse.urlparse(_).path] *)
Variable url_path : string -> string.

(** The arguments of [download_worker]; [save_dir] is the root of
    [filesystem]. *)
Variable min_size_kb : Z.
Variable max_media_per_type : gmap media_type Z.

(** [max_media_per_type.get(mtype, 0) and
     media_count.get(mtype, 0) >= max_media_per_type[mtype]] *)
Definition quota_reached (media_count : gmap media_type Z) (mtype : media_type) : bool :=
  (negb (get0 max_media_per_type mtype =? 0)%Z
   && (get0 max_media_per_type mtype <=? get0 media_count mtype)%Z)%bool.

(** [int(r.headers.get("Content-Length", 0))]; [None] when [int] raises. *)
Definition declared_length (r : response) : option Z :=
  match content_length r with
  | HeaderAbsent => Some 0
  | HeaderInt n => Some n
  | HeaderJunk => None
  end.

(** [int(r.headers.get("Content-Length", 0)) / 1024]: a float, or [None]
    when [int] or the division raises. *)
Definition declared_size_kb (r : response) : option Q :=
  match declared_length r with
  | Some n => PyFloat.div_1024 n
  | None => None
  end.

(** The name of the file an item is saved under. *)
Definition choose_filename (url : string) (randint : Z) : string :=
  let filename := OsPath.basename (url_path url) in
  if (negb (PyStr.truthy filename) || negb (PyStr.contains "." filename))%bool then
    let ext := if PyStr.truthy (OsPath.splitext_ext url)
               then OsPath.splitext_ext url else ".bin" in
    "file_" +:+ pretty randint +:+ ext
  else filename.

(** The record of an item saved with the size [size_kb]. *)
Definition saved_record (env : item_env) (item : queue_item) (size_kb : Q)
    : download_record :=
  DownloadRecord (item_url item) (item_type item) (int_of_Q size_kb)
    (choose_filename (item_url item) (env_randint env)) (item_source item).

(** One iteration of the loop of [download_worker] after [get()] returned
    [item]: the worker's [media_count], the ledger and the files after
    it.  [size_kb < min_size_kb] tests a float against an [int], which
    Python compares by value. *)
Definition process_item (env : item_env) (item : queue_item)
    (media_count : gmap media_type Z) (downloaded_media : list download_record)
    (files : filesystem)
    : gmap media_type Z * list download_record * filesystem :=
  let url := item_url item in
  let mtype := item_type item in
  let source_url := item_source item in
  let unchanged := (media_count, downloaded_media, files) in
  if quota_reached media_count mtype then unchanged
  else
    match env_response env with
    | None => unchanged
    | Some r =>
        match declared_size_kb r with
        | None => unchanged
        | Some size_kb =>
            if Qlt_le_dec size_kb (inject_Z min_size_kb) then unchanged
            else
              let filename := choose_filename url (env_randint env) in
              let filepath := [media_type_name mtype; filename] in
              match env_write env with
              | WriteRaises None => unchanged
              | WriteRaises (Some data) =>
                  (media_count, downloaded_media,
                   <[filepath := FileBytes data]> files)
              | WriteCompletes =>
                  (<[mtype := get0 media_count mtype + 1]> media_count,
                   downloaded_media ++
                     [DownloadRecord url mtype (int_of_Q size_kb) filename source_url],
                   <[filepath := FileBytes (content r)]> files)
              end
        end
    end.

Definition set_worker (i : nat) (w : worker) (p : pool_state) : pool_state :=
  {| queue := queue p; downloaded_media := downloaded_media p;
     files := files p; workers := <[i := w]> (workers p) |}.

(** The pool after worker [i] took [item] off the queue and ran one
    iteration on it. *)
Definition run_item (env : item_env) (i : nat) (w : worker)
    (item : queue_item) (rest : list queue_item) (p : pool_state) : pool_state :=
  let '(count, ledger, fs) :=
    process_item env item (media_count w) (downloaded_media p) (files p) in
  {| queue := rest; downloaded_media := ledger; files := fs;
     workers := <[i := Worker count AtLoopTest]> (workers p) |}.

(** The interleavings of the workers.  A worker moves by testing
    [download_queue.empty()], or by taking the head of the queue and
    running its iteration on it; a worker at [get()] in front of an empty
    queue does not move. *)
Inductive pool_step : pool_state -> pool_state -> Prop :=
| step_queue_empty p i w :
    workers p !! i = Some w -> phase w = AtLoopTest -> queue p = [] ->
    pool_step p (set_worker i (Worker (media_count w) Exited) p)
| step_queue_nonempty p i w :
    workers p !! i = Some w -> phase w = AtLoopTest -> queue p <> [] ->
    pool_step p (set_worker i (Worker (media_count w) AtGet) p)
| step_item p i w item rest env :
    workers p !! i = Some w -> phase w = AtGet -> queue p = item :: rest ->
    (1000 <= env_randint env <= 9999)%Z ->
    pool_step p (run_item env i w item rest p).

(** The move of worker [i], computed: [None] when it has none (no such
    worker, it has exited, or it waits in [get()] on an empty queue). *)
Definition worker_step (env : item_env) (i : nat) (p : pool_state) : option pool_state :=
  match workers p !! i with
  | None => None
  | Some w =>
      match phase w with
      | Exited => None
      | AtLoopTest =>
          match queue p with
          | [] => Some (set_worker i (Worker (media_count w) Exited) p)
          | _ :: _ => Some (set_worker i (Worker (media_count w) AtGet) p)
          end
      | AtGet =>
          match queue p with
          | [] => None
          | item :: rest =>
              if bool_decide (1000 <= env_randint env <= 9999)%Z
              then Some (run_item env i w item rest p)
              else None
          end
      end
  end.

(** The interleaving a schedule describes: which worker moves next, and in
    which environment. *)
Fixpoint run_schedule (schedule : list (nat * item_env)) (p : pool_state)
    : option pool_state :=
  match schedule with
  | [] => Some p
  | (i, env) :: schedule' =>
      match worker_step env i p with
      | Some p' => run_schedule schedule' p'
      | None => None
      end
  end.

End Worker.

(** The pool as [main] starts it: [n] threads of [download_worker], each
    with an empty [media_count]. *)
Definition start_pool (n : nat) (q : list queue_item) (fs : filesystem) : pool_state :=
  {| queue := q; downloaded_media := []; files := fs;
     workers := replicate n (Worker ∅ AtLoopTest) |}.

(** [t.join()] for every thread returned. *)
Definition all_joined (p : pool_state) : Prop :=
  Forall (fun w => phase w = Exited) (workers p).

(** ** Counting downloads *)

(** The number of records of a type in a ledger. *)
Definition count_type (mtype : media_type) (ledger : list download_record) : nat :=
  length (filter (fun r => rec_type r = mtype) ledger).

(** The sum over the workers of their own counts for a type. *)
Definition counted (mtype : media_type) (ws : list worker) : Z :=
  foldr (fun w total => get0 (media_count w) mtype + total) 0 ws.

(** The quota invariant of the pool: the records of a type are as many as
    the workers counted between them, and no worker has counted more than
    a positive limit. *)
Definition quota_per_worker (max_media_per_type : gmap media_type Z)
    (mtype : media_type) (p : pool_state) : Prop :=
  Z.of_nat (count_type mtype (downloaded_media p)) = counted mtype (workers p) /\
  Forall (fun w => get0 (media_count w) mtype <= get0 max_media_per_type mtype)
         (workers p).

(** ** The manifest *)

Definition csv_fieldnames : list string :=
  ["url"; "type"; "size_kb"; "filename"; "source_page"].

(** The cells [csv.DictWriter] writes for one record. *)
Definition csv_row (r : download_record) : list string :=
  [rec_url r; media_type_name (rec_type r); pretty (rec_size_kb r);
   rec_filename r; rec_source_page r].

(** The files [os.walk] finds that [save_results] puts in the archive. *)
Definition zip_members (fs : filesystem) : filesystem :=
  filter (fun '(path, _) => last path <> Some "media.zip") fs.

(** [save_results(save_dir)] *)
Definition save_results (downloaded_media : list download_record)
    (fs : filesystem) : filesystem :=
  let fs := <[ ["results.json"] := FileJson downloaded_media ]> fs in
  let fs := <[ ["results.csv"] :=
                 FileCsv (csv_fieldnames :: map csv_row downloaded_media) ]> fs in
  <[ ["media.zip"] := FileZip (zip_members fs) ]> fs.

(** ** [main] *)

(** The answers to the prompts of [main]. *)
Record config := Config {
  cfg_url : string;
  cfg_media_types : list media_type;
  cfg_min_size_kb : Z;
  cfg_max_depth : Z;
  cfg_max_pages : Z;
  cfg_same_domain : bool;
  cfg_max_per_type : gmap media_type Z
}.

(** [min(MAX_THREADS, download_queue.qsize())], the argument of [range]. *)
Definition thread_count (q : list queue_item) : nat :=
  Z.to_nat (Z.min MAX_THREADS (Z.of_nat (length q))).

Section Main.

Variable urljoin : string -> string -> option string.
Variable netloc : string -> string.
Variable url_path : string -> string.
Variable get_page_content : string -> option soup.

(** The traversal [main] runs. *)
Definition main_crawl (cfg : config) : option crawl_state :=
  crawl_from urljoin netloc get_page_content (cfg_media_types cfg)
    (cfg_max_depth cfg) (cfg_max_pages cfg) (cfg_same_domain cfg) (cfg_url cfg).

(** The pool states a run of [main] goes through on an output directory
    holding [fs0]: the traversal runs to its end, then the threads are
    started on the queue it left. *)
Definition main_pool (cfg : config) (fs0 : filesystem) (p : pool_state) : Prop :=
  exists st,
    main_crawl cfg = Some st /\
    rtc (pool_step url_path (cfg_min_size_kb cfg) (cfg_max_per_type cfg))
        (start_pool (thread_count (download_queue st)) (download_queue st) fs0) p.

(** A run of [main]: once every thread is joined, the manifest is written.
    It relates the configuration to the final [downloaded_media] and output
    directory. *)
Inductive main_run (cfg : config) (fs0 : filesystem)
    : list download_record -> filesystem -> Prop :=
| main_run_intro p :
    main_pool cfg fs0 p ->
    all_joined p ->
    main_run cfg fs0 (downloaded_media p)
      (save_results (downloaded_media p) (files p)).

(** The run of [main] under a schedule of its threads, computed: [None]
    when the schedule asks for a move that does not exist, or leaves a
    thread running. *)
Definition main_schedule (cfg : config) (fs0 : filesystem)
    (schedule : list (nat * item_env)) : option (list download_record * filesystem) :=
  match main_crawl cfg with
  | None => None
  | Some st =>
      match run_schedule url_path (cfg_min_size_kb cfg) (cfg_max_per_type cfg) schedule
              (start_pool (thread_count (download_queue st)) (download_queue st) fs0) with
      | None => None
      | Some p =>
          if forallb (fun w => bool_decide (phase w = Exited)) (workers p)
          then Some (downloaded_media p, save_results (downloaded_media p) (files p))
          else None
      end
  end.

End Main.

(** ** A plain model of [urllib.parse]

    Enough of [urljoin] and [urlparse] to run the program on URLs of the
    shape [scheme://authority/path?query#fragment]: an absolute reference
    joins to itself, any other is appended to the directory of the base;
    no reference is rejected. *)

Module SimpleUrl.

(** The index of the first character of [s] that is in [stops], or the
    length of [s]. *)
Fixpoint first_stop (stops : list ascii) (s : string) : nat :=
  match s with
  | EmptyString => O
  | String c s' =>
      if existsb (Ascii.eqb c) stops then O else S (first_stop stops s')
  end.

(** What follows [scheme://]. *)
Definition after_scheme (url : string) : option string :=
  match index 0 "://" url with
  | Some i => Some (PyStr.from (i + 3) url)
  | None => None
  end.

Definition netloc (url : string) : string :=
  match after_scheme url with
  | Some rest => substring 0 (first_stop ["/"; "?"; "#"]%char rest) rest
  | None => ""
  end.

Definition path (url : string) : string :=
  let rest :=
    match after_scheme url with
    | Some rest => PyStr.from (first_stop ["/"; "?"; "#"]%char rest) rest
    | None => url
    end in
  substring 0 (first_stop ["?"; "#"]%char rest) rest.

Definition urljoin (base href : string) : option string :=
  match after_scheme href with
  | Some _ => Some href
  | None =>
      match PyStr.rfind "/" base with
      | Some i => Some (substring 0 (S i) base +:+ href)
      | None => Some href
      end
  end.

End SimpleUrl.

(** ** The documents rule as the specification words it

    "Scan all hyperlink tags; keep only links whose resolved target path
    ends with a known document extension": the test is on the path of the
    joined URL. *)
Definition documents_by_resolved_path (urljoin : string -> string -> option string)
    (url_path : string -> string) (page : soup) (base_url : string) : gset string :=
  list_to_set
    (filter (fun target =>
               existsb (PyStr.endswith (url_path target)) (MEDIA_EXTENSIONS Documents) = true)
            (omap (fun t => tag_attrs t !! "href" ≫= urljoin base_url)
                  (find_all ["a"] page))).

(** ** A small web to run the program on *)

Module Example.

Definition a (href : string) : tag := Tag "a" {[ "href" := href ]}.
Definition img (src : string) : tag := Tag "img" {[ "src" := src ]}.

Definition seed : string := "http://h.org/".

(** The seed links to [b], which cannot be fetched, and to [c]; [c] links
    back to [b], to a page of another site and to a deeper page [d]. *)
Definition web (url : string) : option soup :=
  if String.eqb url "http://h.org/" then
    Some [a "http://h.org/b"; a "http://h.org/c"; img "http://h.org/i.png"]
  else if String.eqb url "http://h.org/c" then
    Some [a "http://h.org/b"; a "http://k.org/z"; a "http://h.org/d";
          img "http://h.org/i.png"; img "http://h.org/j.png"]
  else if String.eqb url "http://h.org/d" then Some [a "http://h.org/e"]
  else if String.eqb url "http://h.org/e" then Some []
  else if String.eqb url "http://k.org/z" then Some []
  else None.

(** The traversal of that web for images. *)
Definition crawl_web (max_depth max_pages : Z) (same_domain : bool) : option crawl_state :=
  crawl_from SimpleUrl.urljoin SimpleUrl.netloc web [Images]
    max_depth max_pages same_domain seed.

(** The URL, depth and outcome of each fetch of a traversal, in order. *)
Definition fetches (run : option crawl_state) : option (list (string * Z * bool)) :=
  (fun st => map (fun e => (ev_url e, ev_depth e, ev_ok e)) (fetch_log st)) <$> run.

(** A page with two links to documents: one names the document in its
    query, the other in its path. *)
Definition documents_page : soup :=
  [a "http://h.org/view?file=a.pdf"; a "http://h.org/b.pdf?download=1"].

(** A page with two images and no links. *)
Definition gallery (url : string) : option soup :=
  if String.eqb url "http://h.org/" then
    Some [img "http://h.org/1.png"; img "http://h.org/2.png"]
  else None.

(** One image at most is asked for. *)
Definition one_image : config :=
  {| cfg_url := seed; cfg_media_types := [Images]; cfg_min_size_kb := 0;
     cfg_max_depth := 0; cfg_max_pages := 100; cfg_same_domain := true;
     cfg_max_per_type := {[ Images := 1 ]} |}.

(** The server answers with a 4096-byte image, and the disk takes it. *)
Definition image_served : item_env :=
  {| env_response := Some (Response (HeaderInt 4096) "PNG");
     env_randint := 1000; env_write := WriteCompletes |}.

(** Both threads find the queue non-empty, each takes one item and saves
    it, both find the queue empty and return. *)
Definition two_threads : list (nat * item_env) :=
  [(0%nat, image_served); (1%nat, image_served);
   (0%nat, image_served); (1%nat, image_served);
   (0%nat, image_served); (1%nat, image_served)].

(** [main] on the gallery under that schedule. *)
Definition main_gallery (cfg : config) (schedule : list (nat * item_env))
    : option (list download_record * filesystem) :=
  main_schedule SimpleUrl.urljoin SimpleUrl.netloc SimpleUrl.path gallery
    cfg ∅ schedule.

(** The same run when only audio is asked for: the gallery has none. *)
Definition audio_only : config :=
  {| cfg_url := seed; cfg_media_types := [Audio]; cfg_min_size_kb := 0;
     cfg_max_depth := 0; cfg_max_pages := 100; cfg_same_domain := true;
     cfg_max_per_type := ∅ |}.

(** The first image of the gallery, as queued. *)
Definition first_image : queue_item :=
  QueueItem "http://h.org/1.png" Images "http://h.org/".

(** The server declares 100 bytes. *)
Definition thumbnail : response := Response (HeaderInt 100) "0123456789".
Definition thumbnail_served : item_env :=
  {| env_response := Some thumbnail; env_randint := 1000;
     env_write := WriteCompletes |}.

(** One thread does all the work; the other finds the queue empty. *)
Definition one_thread : list (nat * item_env) :=
  [(0%nat, image_served); (0%nat, image_served);
   (0%nat, image_served); (0%nat, image_served);
   (0%nat, image_served); (1%nat, image_served)].

End Example.

(** ** Invariants of the traversal *)

(** The page-count invariant: [visited_urls] is within the ceiling, it was
    at every fetch, and it is the set of the last fetch. *)
Definition within_max_pages (max_pages : Z) (st : crawl_state) : Prop :=
  Z.of_nat (size (visited_urls st)) <= max_pages /\
  Forall (fun e => Z.of_nat (size (ev_visited e)) <= max_pages) (fetch_log st) /\
  visited_urls st = default ∅ (ev_visited <$> last (fetch_log st)).

(** The fetch-log invariant: [visited_urls] is the set of the URLs fetched
    with success; a fetch that failed was of a URL the web has no page for;
    of two fetches of one URL, both failed. *)
Definition fetch_log_consistent (get_page_content : string -> option soup)
    (st : crawl_state) : Prop :=
  (forall url,
     url ∈ visited_urls st <->
     exists e, e ∈ fetch_log st /\ ev_url e = url /\ ev_ok e = true) /\
  (forall e, e ∈ fetch_log st -> ev_ok e = false ->
     get_page_content (ev_url e) = None) /\
  (forall i j e1 e2,
     (i < j)%nat ->
     fetch_log st !! i = Some e1 -> fetch_log st !! j = Some e2 ->
     ev_url e1 = ev_url e2 -> ev_ok e1 = false /\ ev_ok e2 = false).

(** ** Further definitions *)

(** An uppercase ASCII letter. *)
Definition is_ascii_upper (c : ascii) : bool :=
  ((65 <=? nat_of_ascii c)%nat && (nat_of_ascii c <=? 90)%nat)%bool.

(** The state [st'] holds all that [st] holds: the visited URLs, the queue
    and the log of [st], each with what came after. *)
Definition extends (st st' : crawl_state) : Prop :=
  visited_urls st ⊆ visited_urls st' /\
  download_queue st `prefix_of` download_queue st' /\
  fetch_log st `prefix_of` fetch_log st'.

(** Where a queued item comes from: its type was asked for, its source is a
    visited page, and its URL is one the extractor returns for that page
    and that type. *)
Definition item_extracted (urljoin : string -> string -> option string)
    (get_page_content : string -> option soup) (media_types : list media_type)
    (visited : gset string) (item : queue_item) : Prop :=
  item_type item ∈ media_types /\
  item_source item ∈ visited /\
  exists page links,
    get_page_content (item_source item) = Some page /\
    extract_media_links urljoin page (item_source item) (item_type item) = Some links /\
    item_url item ∈ links.

(** A page with one [source] tag. *)
Definition clip_page : soup :=
  [Tag "source" {[ "src" := "http://h.org/clip.mp4" ]}].

(** [download_worker] as run by a thread that gets every item of [queue]
    itself: the loop of the function, the environment of each iteration
    taken from [envs] in order.  It returns the thread's [media_count], the
    ledger and the files at the end. *)
Fixpoint download_worker (url_path : string -> string) (min_size_kb : Z)
    (max_media_per_type : gmap media_type Z)
    (envs : list item_env) (queue : list queue_item)
    (media_count : gmap media_type Z) (downloaded_media : list download_record)
    (files : filesystem)
    : gmap media_type Z * list download_record * filesystem :=
  match queue, envs with
  | item :: rest, env :: envs' =>
      let '(count, ledger, fs) :=
        process_item url_path min_size_kb max_media_per_type env item
          media_count downloaded_media files in
      download_worker url_path min_size_kb max_media_per_type envs' rest
        count ledger fs
  | _, _ => (media_count, downloaded_media, files)
  end.

(** The path a record says its file is at. *)
Definition record_path (r : download_record) : list string :=
  [media_type_name (rec_type r); rec_filename r].

(** A record made from a queue item: same URL, type and source page. *)
Definition record_of_item (r : download_record) (item : queue_item) : Prop :=
  rec_url r = item_url item /\ rec_type r = item_type item /\
  rec_source_page r = item_source item.

(** [media_map.get(choice, ['images'])] of [main]. *)
Definition media_map (choice : string) : list media_type :=
  if String.eqb choice "1" then [Images]
  else if String.eqb choice "2" then [Videos]
  else if String.eqb choice "3" then [Audio]
  else if String.eqb choice "4" then [Documents]
  else if String.eqb choice "5" then [Images; Videos; Audio; Documents]
  else [Images].

(** The request fails: [requests.get] raises. *)
Definition no_answer : item_env :=
  {| env_response := None; env_randint := 1000; env_write := WriteRaises None |}.

(** [input(...).lower() == 'y'] of [main]: the answer that keeps the
    traversal on the domain of the seed. *)
Definition same_domain_answer (answer : string) : bool :=
  String.eqb (PyStr.lower answer) "y".

(** The second image of the gallery, as queued, and the queue of the
    gallery. *)
Definition second_image : queue_item :=
  QueueItem "http://h.org/2.png" Images "http://h.org/".
Definition gallery_queue : list queue_item := [Example.first_image; second_image].

(** Two logos with the same file name in two folders of the site. *)
Definition logo_a : queue_item :=
  QueueItem "http://h.org/a/logo.png" Images "http://h.org/".
Definition logo_b : queue_item :=
  QueueItem "http://h.org/b/logo.png" Images "http://h.org/".
Definition logo_served (body : string) : item_env :=
  {| env_response := Some (Response (HeaderInt 2048) body);
     env_randint := 1000; env_write := WriteCompletes |}.

(** An output directory that holds a file of an earlier run. *)
Definition old_directory : filesystem := {[ ["old.txt"] := FileBytes "x" ]}.

(** The pool of the gallery under a schedule: two threads, one image at
    most asked for, no minimum size. *)
Definition gallery_pool (fs0 : filesystem) (schedule : list (nat * item_env))
    : option pool_state :=
  run_schedule SimpleUrl.path 0 {[ Images := 1 ]} schedule
    (start_pool 2 gallery_queue fs0).

(** * Properties *)

(** ** The traversal *)

Section CrawlFacts.

Variable urljoin : string -> string -> option string.
Variable netloc : string -> string.
Variable get_page_content : string -> option soup.
Variable media_types : list media_type.
Variable max_depth max_pages : Z.
Variable same_domain : bool.

(** The program's functions at the parameters of this section. *)
Local Abbreviation run_crawl :=
  (crawl urljoin netloc get_page_content media_types max_depth max_pages same_domain).
Local Abbreviation run_crawl_from :=
  (crawl_from urljoin netloc get_page_content media_types max_depth max_pages same_domain).
Local Abbreviation guard := (crawl_guard max_depth max_pages).
Local Abbreviation links_of := (extract_links urljoin netloc).
Local Abbreviation path_from :=
  (link_path urljoin netloc get_page_content same_domain).

(** What a call that gets past the guard knows. *)
Lemma crawl_guard_false url d st :
  guard url d st = false ->
  (url ∉ visited_urls st) /\ d <= max_depth /\
  Z.of_nat (size (visited_urls st)) < max_pages.
Proof.
  unfold crawl_guard. intros H.
  apply orb_false_elim in H as [H Hpages].
  apply orb_false_elim in H as [Hvisited Hdepth].
  apply bool_decide_eq_false in Hvisited.
  apply Z.ltb_ge in Hdepth. apply Z.leb_gt in Hpages. done.
Qed.

Lemma crawl_guard_true url d st :
  guard url d st = true ->
  (url ∈ visited_urls st) \/ max_depth < d \/
  max_pages <= Z.of_nat (size (visited_urls st)).
Proof.
  unfold crawl_guard. intros H.
  apply orb_prop in H as [H | Hpages].
  - apply orb_prop in H as [Hvisited | Hdepth].
    + left. by apply bool_decide_eq_true in Hvisited.
    + right; left. by apply Z.ltb_lt.
  - right; right. by apply Z.leb_le.
Qed.

(** A loop of an extractor that has raised stays raised. *)
Lemma foldl_raised {A B} (f : B -> A -> option B) (l : list A) :
  foldl (fun acc x => acc ≫= fun b => f b x) None l = None.
Proof. by induction l. Qed.

(** The links [extract_links] returns: each is the join of the [href] of an
    [a] tag with the base URL, and with [same_domain] its [netloc] is the
    one of the base URL. *)
Lemma elem_of_extract_links page base sd links link :
  links_of page base sd = Some links ->
  (link ∈ links <->
   exists t href,
     t ∈ page /\ tag_name t = "a" /\ tag_attrs t !! "href" = Some href /\
     urljoin base href = Some link /\
     (sd = true -> netloc link = netloc base)).
Proof.
  unfold extract_links. intros Hrun.
  assert (Hgen : forall (tags : list tag) (acc : gset string),
    foldl (fun acc t => links ← acc; add_link urljoin netloc base sd links t)
      (Some acc) tags = Some links ->
    (link ∈ links <->
     link ∈ acc \/
     exists t href, t ∈ tags /\ tag_attrs t !! "href" = Some href /\
       urljoin base href = Some link /\ (sd = true -> netloc link = netloc base))).
  { clear Hrun. induction tags as [|t tags IH]; intros acc Hrun;
      cbn [foldl mbind option_bind] in Hrun.
    - injection Hrun as <-. split; [by left|].
      intros [H | (t & ? & Ht & _)]; [done|]. by apply elem_of_nil in Ht.
    - unfold add_link at 2 in Hrun.
      destruct (tag_attrs t !! "href") as [href|] eqn:Hhref.
      + destruct (urljoin base href) as [full_url|] eqn:Hjoin;
          cbn [mbind option_bind] in Hrun; [|by rewrite foldl_raised in Hrun].
        destruct (sd && negb (String.eqb (netloc full_url) (netloc base)))%bool
          eqn:Hdrop.
        * apply IH in Hrun. rewrite Hrun. split.
          -- intros [Hacc | (t' & href' & Ht' & Hrest)]; [by left|].
             right. exists t', href'. split; [by right|done].
          -- intros [Hacc | (t' & href' & Ht' & Hhref' & Hjoin' & Hdom)]; [by left|].
             apply elem_of_cons in Ht' as [-> | Ht']; [|right; by exists t', href'].
             exfalso. rewrite Hhref in Hhref'. injection Hhref' as <-.
             rewrite Hjoin in Hjoin'. injection Hjoin' as <-.
             apply andb_prop in Hdrop as [-> Hne]. rewrite Hdom in Hne by done.
             by rewrite String.eqb_refl in Hne.
        * apply IH in Hrun. rewrite Hrun, elem_of_union, elem_of_singleton. split.
          -- intros [[-> | Hacc] | (t' & href' & Ht' & Hrest)].
             ++ right. exists t, href. split_and!; [by left|done|done|].
                intros ->. simpl in Hdrop. apply negb_false_iff in Hdrop.
                by apply String.eqb_eq in Hdrop.
             ++ by left.
             ++ right. exists t', href'. split; [by right|done].
          -- intros [Hacc | (t' & href' & Ht' & Hhref' & Hjoin' & Hdom)]; [by left; right|].
             apply elem_of_cons in Ht' as [-> | Ht']; [|right; by exists t', href'].
             left; left. rewrite Hhref in Hhref'. injection Hhref' as <-.
             rewrite Hjoin in Hjoin'. by injection Hjoin'.
      + apply IH in Hrun. rewrite Hrun. split.
        * intros [Hacc | (t' & href' & Ht' & Hrest)]; [by left|].
          right. exists t', href'. split; [by right|done].
        * intros [Hacc | (t' & href' & Ht' & Hhref' & Hrest)]; [by left|].
          apply elem_of_cons in Ht' as [-> | Ht']; [congruence|].
          right. by exists t', href'. }
  rewrite (Hgen _ _ Hrun). unfold find_all_a_href. split.
  - intros [H | (t & href & Ht & Hrest)]; [by apply not_elem_of_empty in H|].
    apply list_elem_of_filter in Ht as [[Hname _] Ht].
    by exists t, href.
  - intros (t & href & Ht & Hname & Hhref & Hrest). right.
    exists t, href. split; [|done].
    apply list_elem_of_filter. split; [|done]. split; [done|]. by rewrite Hhref.
Qed.

(** [foldl] over the links once a nested call has run out of fuel. *)
Lemma crawl_children_None fuel d (links : list string) :
  foldl (fun acc link =>
           match acc with
           | Some st => run_crawl fuel link d st
           | None => None
           end) None links = None.
Proof. by induction links. Qed.

(** Queueing media touches neither [visited_urls] nor the log. *)
Lemma enqueue_media_preserves (I : crawl_state -> Prop) page url st :
  (forall item st, I st -> I (put item st)) ->
  I st -> I (enqueue_media urljoin media_types page url st).1.
Proof.
  intros Hput. unfold enqueue_media.
  generalize true. revert st.
  induction media_types as [|mtype mtypes IH]; intros st ok Hst; [done|].
  cbn [foldl]. unfold enqueue_type at 2. destruct ok; [|by apply IH].
  destruct (extract_media_links urljoin page url mtype) as [links|]; [|by apply IH].
  apply IH. generalize (elements links). intros l. revert st Hst.
  induction l as [|link l IHl]; intros st Hst; [done|].
  cbn [foldl]. apply IHl. by apply Hput.
Qed.

(** The proof rule of [crawl].  [Q] is what holds of the arguments of every
    call, [I] what holds of the state between the steps of the traversal. *)
Lemma crawl_rule (Q : string -> Z -> Prop) (I : crawl_state -> Prop) :
  (forall url d st,
     Q url d -> I st -> guard url d st = false ->
     get_page_content url = None -> I (fetch_failed url d st)) ->
  (forall url d st page,
     Q url d -> I st -> guard url d st = false ->
     get_page_content url = Some page -> I (fetch_succeeded url d st)) ->
  (forall item st, I st -> I (put item st)) ->
  (forall url d page links link,
     Q url d -> d <= max_depth -> get_page_content url = Some page ->
     links_of page url same_domain = Some links -> link ∈ links ->
     Q link (d + 1)) ->
  forall fuel url d st st',
    Q url d -> I st -> run_crawl fuel url d st = Some st' -> I st'.
Proof.
  intros Hfail Hok Hput Hchild.
  induction fuel as [|fuel IH]; intros url d st st' HQ HI Hrun; [done|].
  simpl in Hrun.
  destruct (guard url d st) eqn:Hguard; [by simplify_eq|].
  destruct (get_page_content url) as [page|] eqn:Hpage;
    [|simplify_eq; by apply Hfail].
  pose proof (crawl_guard_false _ _ _ Hguard) as (_ & Hdepth & _).
  assert (Hstart : I (enqueue_media urljoin media_types page url
                        (fetch_succeeded url d st)).1).
  { apply enqueue_media_preserves; [done|]. by eapply Hok. }
  destruct (enqueue_media urljoin media_types page url (fetch_succeeded url d st))
    as [st0 [|]]; simpl in Hstart; [|by simplify_eq].
  destruct (links_of page url same_domain) as [links|] eqn:Hlinks; [|by simplify_eq].
  assert (Hall : forall link, link ∈ elements links -> Q link (d + 1)).
  { intros link Hin. apply elem_of_elements in Hin. by eapply Hchild. }
  revert Hall Hstart Hrun. generalize (elements links). clear Hlinks. revert st0.
  intros st0 l. revert st0.
  induction l as [|link l IHl]; intros st0 Hall Hst0 Hrun.
  - simpl in Hrun. by simplify_eq.
  - simpl in Hrun.
    destruct (run_crawl fuel link (d + 1) st0) as [st1|] eqn:Hcall.
    + apply (IHl st1); [|by eapply IH; [apply Hall; left|..]|done].
      intros l0 Hl0. apply Hall. by right.
    + by rewrite crawl_children_None in Hrun.
Qed.

(** [crawl] returns: the depth guard bounds the nesting of the calls. *)
Lemma crawl_total fuel url d st :
  (Z.to_nat (max_depth + 1 - d) < fuel)%nat -> is_Some (run_crawl fuel url d st).
Proof.
  revert url d st. induction fuel as [|fuel IH]; intros url d st Hfuel; [lia|].
  simpl. destruct (guard url d st) eqn:Hguard; [done|].
  destruct (get_page_content url) as [page|]; [|done].
  apply crawl_guard_false in Hguard as (_ & Hdepth & _).
  destruct (enqueue_media urljoin media_types page url (fetch_succeeded url d st))
    as [st0 [|]]; [|done].
  destruct (links_of page url same_domain) as [links|]; [|done].
  generalize (elements links). intros l. revert st0.
  induction l as [|link l IHl]; intros st0; [done|].
  simpl. destruct (IH link (d + 1) st0) as [st1 ->]; [lia|]. apply IHl.
Qed.

Lemma crawl_from_total url : is_Some (run_crawl_from url).
Proof. apply crawl_total. unfold crawl_fuel. lia. Qed.

(** The guard sends the call back with the state untouched. *)
Lemma crawl_guarded fuel url d st :
  guard url d st = true -> run_crawl (S fuel) url d st = Some st.
Proof. intros H. simpl. by rewrite H. Qed.

Lemma within_max_pages_crawl fuel url d st st' :
  within_max_pages max_pages st -> run_crawl fuel url d st = Some st' ->
  within_max_pages max_pages st'.
Proof.
  intros Hst. apply (crawl_rule (fun _ _ => True) (within_max_pages max_pages)); try done.
  - clear. intros url d st _ (Hsize & Hlog & Hlast) _ _.
    unfold within_max_pages, fetch_failed; simpl. split_and!; [done| |].
    + apply Forall_app. split; [done|]. by apply Forall_singleton.
    + by rewrite last_snoc.
  - clear. intros url d st page _ (Hsize & Hlog & Hlast) Hguard _.
    apply crawl_guard_false in Hguard as (Hfresh & _ & Hroom).
    assert (Hnew : Z.of_nat (size ({[url]} ∪ visited_urls st)) <= max_pages).
    { rewrite size_union by (by apply disjoint_singleton_l).
      rewrite size_singleton. lia. }
    unfold within_max_pages, fetch_succeeded; simpl. split_and!; [done| |].
    + apply Forall_app. split; [done|]. by apply Forall_singleton.
    + by rewrite last_snoc.
Qed.

(** C3. With [max_pages] not negative, [visited_urls] never holds more than
    [max_pages] URLs: not after the traversal, and not at any fetch during
    it (the set changes at fetches only, and ends as the set of the last
    one).  The ceiling is on the one global set: a call that finds it
    reached returns the state as it got it, whatever its branch or depth. *)
Theorem page_count_bound seed :
  0 <= max_pages ->
  exists st,
    run_crawl_from seed = Some st /\
    Z.of_nat (size (visited_urls st)) <= max_pages /\
    Forall (fun e => Z.of_nat (size (ev_visited e)) <= max_pages) (fetch_log st) /\
    visited_urls st = default ∅ (ev_visited <$> last (fetch_log st)) /\
    (forall fuel url d st0,
       max_pages <= Z.of_nat (size (visited_urls st0)) ->
       run_crawl (S fuel) url d st0 = Some st0).
Proof.
  intros Hmax. destruct (crawl_from_total seed) as [st Hrun].
  exists st. split; [done|].
  assert (Hinv : within_max_pages max_pages st).
  { eapply within_max_pages_crawl; [|exact Hrun].
    unfold within_max_pages, initial_state; cbn [visited_urls fetch_log].
    rewrite size_empty. split_and!; [lia|done|done]. }
  destruct Hinv as (Hsize & Hlog & Hlast). split_and!; try done.
  intros fuel url d st0 Hfull. apply crawl_guarded.
  unfold crawl_guard. apply Z.leb_le in Hfull. rewrite Hfull.
  by rewrite !orb_true_r.
Qed.

(** C4. With [same_domain] set, every URL the traversal fetches has the
    [netloc] of the seed, although [extract_links] only compares a link
    with the page it was found on. *)
Theorem same_domain_fetches seed :
  same_domain = true ->
  exists st,
    run_crawl_from seed = Some st /\
    (forall e, e ∈ fetch_log st -> netloc (ev_url e) = netloc seed) /\
    (forall page base links link,
       links_of page base true = Some links -> link ∈ links ->
       netloc link = netloc base).
Proof.
  intros Hsame. destruct (crawl_from_total seed) as [st Hrun].
  exists st. split; [done|]. split.
  - revert Hrun.
    apply (crawl_rule (fun url _ => netloc url = netloc seed)
             (fun st => forall e, e ∈ fetch_log st -> netloc (ev_url e) = netloc seed)).
    + intros url d st0 Hurl Hlog _ _ e He. simpl in He.
      apply elem_of_app in He as [He | He]; [by apply Hlog|].
      apply list_elem_of_singleton in He. by subst e.
    + intros url d st0 page Hurl Hlog _ _ e He. simpl in He.
      apply elem_of_app in He as [He | He]; [by apply Hlog|].
      apply list_elem_of_singleton in He. by subst e.
    + done.
    + intros url d page links link Hurl _ _ Hlinks Hlink. rewrite Hsame in Hlinks.
      apply (elem_of_extract_links _ _ _ _ link) in Hlinks.
      apply Hlinks in Hlink as (t & href & _ & _ & _ & _ & Hdom).
      rewrite Hdom by done. done.
    + done.
    + intros e He. by apply elem_of_nil in He.
  - intros page base links link Hlinks Hlink.
    apply (elem_of_extract_links _ _ _ _ link) in Hlinks.
    apply Hlinks in Hlink as (t & href & _ & _ & _ & _ & Hdom).
    by apply Hdom.
Qed.

(** C6. Every fetch is made at a depth from 0 to [max_depth], for a URL
    that a path of exactly that many links joins to the seed: each call
    hands [current_depth + 1] to its children.  So a page whose every link
    path from the seed is longer than [max_depth] is never fetched; and a
    call deeper than [max_depth] returns the state as it got it. *)
Theorem depth_bound seed :
  exists st,
    run_crawl_from seed = Some st /\
    (forall e, e ∈ fetch_log st ->
       0 <= ev_depth e <= max_depth /\ path_from seed (ev_url e) (ev_depth e)) /\
    (forall url,
       (forall n, path_from seed url n -> max_depth < n) ->
       forall e, e ∈ fetch_log st -> ev_url e <> url) /\
    (forall fuel url d st0,
       max_depth < d -> run_crawl (S fuel) url d st0 = Some st0).
Proof.
  destruct (crawl_from_total seed) as [st Hrun]. exists st. split; [done|].
  assert (Hlog : forall e, e ∈ fetch_log st ->
            0 <= ev_depth e <= max_depth /\ path_from seed (ev_url e) (ev_depth e)).
  { revert Hrun.
    apply (crawl_rule (fun url d => 0 <= d /\ path_from seed url d)
             (fun st => forall e, e ∈ fetch_log st ->
                0 <= ev_depth e <= max_depth /\
                path_from seed (ev_url e) (ev_depth e))).
    - intros url d st0 [Hd Hpath] Hlog Hguard _ e He. simpl in He.
      apply crawl_guard_false in Hguard as (_ & Hdepth & _).
      apply elem_of_app in He as [He | He]; [by apply Hlog|].
      apply list_elem_of_singleton in He. subst e. simpl. split; [lia|done].
    - intros url d st0 page [Hd Hpath] Hlog Hguard _ e He. simpl in He.
      apply crawl_guard_false in Hguard as (_ & Hdepth & _).
      apply elem_of_app in He as [He | He]; [by apply Hlog|].
      apply list_elem_of_singleton in He. subst e. simpl. split; [lia|done].
    - done.
    - intros url d page links link [Hd Hpath] _ Hpage Hlinks Hlink. split; [lia|].
      by eapply link_path_step.
    - split; [lia|]. constructor.
    - intros e He. by apply elem_of_nil in He. }
  split_and!; [done| |].
  - intros url Hfar e He Heq. destruct (Hlog e He) as [Hd Hpath].
    rewrite Heq in Hpath. apply Hfar in Hpath. lia.
  - intros fuel url d st0 Hdeep. apply crawl_guarded.
    unfold crawl_guard. apply Z.ltb_lt in Hdeep. rewrite Hdeep.
    by rewrite orb_true_r.
Qed.

Lemma fetch_log_consistent_crawl fuel url d st st' :
  fetch_log_consistent get_page_content st ->
  run_crawl fuel url d st = Some st' ->
  fetch_log_consistent get_page_content st'.
Proof.
  intros Hst.
  apply (crawl_rule (fun _ _ => True) (fetch_log_consistent get_page_content));
    try done; clear.
  - intros url d st _ (Hvis & Hfail & Hpair) Hguard Hpage.
    apply crawl_guard_false in Hguard as (Hfresh & _ & _).
    unfold fetch_log_consistent, fetch_failed; cbn [visited_urls fetch_log].
    split_and!.
    + intros u. rewrite Hvis. split.
      * intros (e & He & Hrest). exists e. split; [|done].
        apply elem_of_app. by left.
      * intros (e & He & Hu & Hok). apply elem_of_app in He as [He | He].
        -- by exists e.
        -- apply list_elem_of_singleton in He. by subst e.
    + intros e He Hno. apply elem_of_app in He as [He | He]; [by apply Hfail|].
      apply list_elem_of_singleton in He. by subst e.
    + intros i j e1 e2 Hij H1 H2 Hsame.
      apply lookup_snoc_Some in H1 as [[Hi H1] | [Hi H1]];
        apply lookup_snoc_Some in H2 as [[Hj H2] | [Hj H2]]; try lia.
      * exact (Hpair i j e1 e2 Hij H1 H2 Hsame).
      * subst e2. simpl in *. split; [|done].
        destruct (ev_ok e1) eqn:Hok; [|done]. exfalso. apply Hfresh.
        apply Hvis. exists e1. split; [|done]. by eapply list_elem_of_lookup_2.
  - intros url d st page _ (Hvis & Hfail & Hpair) Hguard Hpage.
    apply crawl_guard_false in Hguard as (Hfresh & _ & _).
    unfold fetch_log_consistent, fetch_succeeded; cbn [visited_urls fetch_log].
    split_and!.
    + intros u. rewrite elem_of_union, elem_of_singleton, Hvis. split.
      * intros [-> | (e & He & Hrest)].
        -- eexists. split; [apply elem_of_app; right; by apply list_elem_of_singleton|done].
        -- exists e. split; [|done]. apply elem_of_app. by left.
      * intros (e & He & Hu & Hok). apply elem_of_app in He as [He | He].
        -- right. by exists e.
        -- apply list_elem_of_singleton in He. subst e. by left.
    + intros e He Hno. apply elem_of_app in He as [He | He]; [by apply Hfail|].
      apply list_elem_of_singleton in He. by subst e.
    + intros i j e1 e2 Hij H1 H2 Hsame.
      apply lookup_snoc_Some in H1 as [[Hi H1] | [Hi H1]];
        apply lookup_snoc_Some in H2 as [[Hj H2] | [Hj H2]]; try lia.
      * exact (Hpair i j e1 e2 Hij H1 H2 Hsame).
      * subst e2. simpl in *. exfalso.
        assert (He1 : e1 ∈ fetch_log st) by (by eapply list_elem_of_lookup_2).
        destruct (ev_ok e1) eqn:Hok.
        -- apply Hfresh. apply Hvis. by exists e1.
        -- apply Hfail in He1; [|done]. congruence.
Qed.

(** C2, as the code has it.  [visited_urls] holds each URL once, and holds
    exactly the URLs fetched with success.  Two fetches of one URL in a
    traversal both failed: a URL is not fetched again after a fetch of it
    succeeded.  A failed fetch leaves [visited_urls] alone, and the guard
    reads nothing else: a call for a URL that failed before, with the depth
    and page guards open, fetches it again. *)
Theorem no_fetch_after_success seed :
  exists st,
    run_crawl_from seed = Some st /\
    NoDup (elements (visited_urls st)) /\
    (forall url,
       url ∈ visited_urls st <->
       exists e, e ∈ fetch_log st /\ ev_url e = url /\ ev_ok e = true) /\
    (forall i j e1 e2,
       (i < j)%nat ->
       fetch_log st !! i = Some e1 -> fetch_log st !! j = Some e2 ->
       ev_url e1 = ev_url e2 -> ev_ok e1 = false /\ ev_ok e2 = false) /\
    (forall fuel url d st0,
       guard url d st0 = false -> get_page_content url = None ->
       run_crawl (S fuel) url d st0 = Some (fetch_failed url d st0) /\
       visited_urls (fetch_failed url d st0) = visited_urls st0).
Proof.
  destruct (crawl_from_total seed) as [st Hrun]. exists st. split; [done|].
  assert (Hinv : fetch_log_consistent get_page_content st).
  { eapply fetch_log_consistent_crawl; [|exact Hrun].
    unfold fetch_log_consistent, initial_state; cbn [visited_urls fetch_log].
    split_and!.
    - intros u. split; [by intros H%not_elem_of_empty|].
      intros (e & He & _). by apply elem_of_nil in He.
    - intros e He. by apply elem_of_nil in He.
    - intros i j e1 e2 _ H1. by rewrite lookup_nil in H1. }
  destruct Hinv as (Hvis & _ & Hpair).
  split_and!; [apply NoDup_elements|done|done|].
  intros fuel url d st0 Hguard Hpage. split; [|done].
  simpl. by rewrite Hguard, Hpage.
Qed.

End CrawlFacts.

(** The pages fetched on the example web with [max_pages = 1]: the seed
    alone, though it links to other pages. *)
Example crawl_web_one_page :
  Example.fetches (Example.crawl_web 5 1 true) = Some [("http://h.org/", 0, true)].
Proof. vm_compute. reflexivity. Qed.

(** With [max_depth = 1] the page [d], two links away from the seed, is not
    fetched. *)
Example crawl_web_depth_one :
  Example.fetches (Example.crawl_web 1 10 true) =
  Some [("http://h.org/", 0, true); ("http://h.org/c", 1, true);
        ("http://h.org/b", 1, false)].
Proof. vm_compute. reflexivity. Qed.

Lemma page_count_bound_witness :
  0 <= 1 /\
  exists st,
    Example.crawl_web 5 1 true = Some st /\ Z.of_nat (size (visited_urls st)) <= 1.
Proof.
  split; [lia|].
  destruct (page_count_bound SimpleUrl.urljoin SimpleUrl.netloc Example.web
              [Images] 5 1 true Example.seed) as (st & Hrun & Hsize & _); [lia|].
  exists st. split; [exact Hrun | exact Hsize].
Defined.

Lemma same_domain_fetches_witness :
  true = true /\
  exists st,
    Example.crawl_web 2 10 true = Some st /\
    forall e, e ∈ fetch_log st ->
      SimpleUrl.netloc (ev_url e) = SimpleUrl.netloc Example.seed.
Proof.
  split; [reflexivity|].
  destruct (same_domain_fetches SimpleUrl.urljoin SimpleUrl.netloc Example.web
              [Images] 2 10 true Example.seed) as (st & Hrun & Hlog & _);
    [reflexivity|].
  exists st. split; [exact Hrun | exact Hlog].
Defined.

(** The link paths of the example web from its seed: the seed itself, then
    [b] and [c], then longer ones. *)
Lemma example_link_paths url n :
  link_path SimpleUrl.urljoin SimpleUrl.netloc Example.web true Example.seed url n ->
  (n = 0 /\ url = Example.seed) \/
  (n = 1 /\ (url = "http://h.org/c" \/ url = "http://h.org/b")) \/
  2 <= n.
Proof.
  induction 1 as [|url n page links link _ IH Hpage Hlinks Hlink]; [by left|].
  destruct IH as [[-> ->] | [[-> _] | Hn]]; [|right; right; lia..].
  right; left. split; [done|].
  vm_compute in Hpage. injection Hpage as <-.
  vm_compute in Hlinks. injection Hlinks as <-.
  apply elem_of_elements in Hlink. vm_compute in Hlink.
  apply elem_of_cons in Hlink as [-> | Hlink]; [by left|].
  apply elem_of_cons in Hlink as [-> | Hlink]; [by right|].
  by apply elem_of_nil in Hlink.
Qed.

Lemma depth_bound_witness :
  (forall n,
     link_path SimpleUrl.urljoin SimpleUrl.netloc Example.web true Example.seed
       "http://h.org/d" n -> 1 < n) /\
  exists st,
    Example.crawl_web 1 10 true = Some st /\
    forall e, e ∈ fetch_log st -> ev_url e <> "http://h.org/d".
Proof.
  assert (Hfar : forall n,
    link_path SimpleUrl.urljoin SimpleUrl.netloc Example.web true Example.seed
      "http://h.org/d" n -> 1 < n).
  { intros n Hpath.
    destruct (example_link_paths _ _ Hpath) as [[_ Hd] | [[_ [Hd | Hd]] | Hn]];
      [discriminate Hd..|lia]. }
  split; [exact Hfar|].
  destruct (depth_bound SimpleUrl.urljoin SimpleUrl.netloc Example.web
              [Images] 1 10 true Example.seed) as (st & Hrun & _ & Hnever & _).
  exists st. split; [exact Hrun|]. exact (Hnever "http://h.org/d" Hfar).
Defined.

Lemma no_fetch_after_success_witness :
  exists st,
    Example.crawl_web 2 10 true = Some st /\
    forall i j e1 e2,
      (i < j)%nat ->
      fetch_log st !! i = Some e1 -> fetch_log st !! j = Some e2 ->
      ev_url e1 = ev_url e2 -> ev_ok e1 = false /\ ev_ok e2 = false.
Proof.
  destruct (no_fetch_after_success SimpleUrl.urljoin SimpleUrl.netloc Example.web
              [Images] 2 10 true Example.seed) as (st & Hrun & _ & _ & Hpair & _).
  exists st. split; [exact Hrun | exact Hpair].
Defined.

(** C2 as stated fails.  On the example web the seed links to [b] and [c],
    [b] cannot be fetched and [c] links to [b] again: [b] is fetched twice,
    the second time after its first fetch failed. *)
Lemma failed_fetch_is_repeated :
  Example.fetches (Example.crawl_web 2 10 true) =
    Some [("http://h.org/", 0, true); ("http://h.org/c", 1, true);
          ("http://h.org/b", 2, false); ("http://h.org/d", 2, true);
          ("http://h.org/b", 1, false)] /\
  exists st,
    Example.crawl_web 2 10 true = Some st /\
    ~ NoDup (map ev_url (fetch_log st)).
Proof.
  split; [vm_compute; reflexivity|].
  destruct (Example.crawl_web 2 10 true) as [st|] eqn:Hrun; [|by vm_compute in Hrun].
  exists st. split; [done|].
  assert (Hurls : map ev_url (fetch_log st) =
            ["http://h.org/"; "http://h.org/c"; "http://h.org/b";
             "http://h.org/d"; "http://h.org/b"]).
  { assert (Hst : Some (map ev_url (fetch_log st)) =
                  (fun st => map ev_url (fetch_log st)) <$> Example.crawl_web 2 10 true)
      by (by rewrite Hrun).
    vm_compute in Hst. by injection Hst. }
  rewrite Hurls. intros Hnodup.
  apply NoDup_cons in Hnodup as [_ Hnodup].
  apply NoDup_cons in Hnodup as [_ Hnodup].
  apply NoDup_cons in Hnodup as [Hb _].
  apply Hb. right. left.
Qed.

(** ** The documents extractor *)

Lemma substring_all s : substring 0 (String.length s) s = s.
Proof. induction s as [|c s IH]; simpl; [done|]. by rewrite IH. Qed.

Lemma substring_after_prefix pre s :
  substring (String.length pre) (String.length s) (pre +:+ s) = s.
Proof. induction pre as [|c pre IH]; simpl; [apply substring_all | exact IH]. Qed.

Lemma string_length_app s1 s2 :
  String.length (s1 +:+ s2) = (String.length s1 + String.length s2)%nat.
Proof. induction s1 as [|c s1 IH]; simpl; [done|]. by rewrite IH. Qed.

Lemma substring_split s m :
  (m <= String.length s)%nat ->
  s = substring 0 m s +:+ substring m (String.length s - m) s.
Proof.
  revert m. induction s as [|c s IH]; intros m Hm.
  - destruct m; simpl in *; [done | lia].
  - destruct m as [|m]; simpl.
    + by rewrite substring_all.
    + change (String c s =
              String c (substring 0 m s +:+ substring m (String.length s - m) s)).
      f_equal. apply IH. simpl in Hm. lia.
Qed.

(** [endswith] is what its name says. *)
Lemma endswith_spec s suffix :
  PyStr.endswith s suffix = true <-> exists pre, s = pre +:+ suffix.
Proof.
  unfold PyStr.endswith. split.
  - intros H. apply andb_prop in H as [Hlen Heq].
    apply Nat.leb_le in Hlen. apply String.eqb_eq in Heq.
    exists (substring 0 (String.length s - String.length suffix) s).
    pose proof (substring_split s (String.length s - String.length suffix)) as Hs.
    replace (String.length s - (String.length s - String.length suffix))%nat
      with (String.length suffix) in Hs by lia.
    rewrite Heq in Hs. apply Hs. lia.
  - intros [pre ->]. rewrite string_length_app.
    apply andb_true_intro. split; [apply Nat.leb_le; lia|].
    replace (String.length pre + String.length suffix - String.length suffix)%nat
      with (String.length pre) by lia.
    rewrite substring_after_prefix. apply String.eqb_refl.
Qed.

(** [is_media_file] tests the lowercased string it is given for one of the
    extensions as a suffix. *)
Lemma is_media_file_spec url extensions :
  is_media_file url extensions = true <->
  exists pre ext, ext ∈ extensions /\ PyStr.lower url = pre +:+ ext.
Proof.
  unfold is_media_file. rewrite existsb_exists. split.
  - intros (ext & Hin & Hends). apply endswith_spec in Hends as [pre Hpre].
    exists pre, ext. split; [by apply list_elem_of_In | done].
  - intros (pre & ext & Hin & Hpre). exists ext.
    split; [by apply list_elem_of_In|]. apply endswith_spec. by exists pre.
Qed.

Lemma documents_loop_elem_of urljoin base_url link (tags : list tag) :
  forall acc links,
    foldl (fun acc t => links ← acc; add_document urljoin base_url links t)
      (Some acc) tags = Some links ->
    (link ∈ links <->
     link ∈ acc \/
     exists t href,
       t ∈ tags /\ tag_attrs t !! "href" = Some href /\
       is_media_file href (MEDIA_EXTENSIONS Documents) = true /\
       urljoin base_url href = Some link).
Proof.
  induction tags as [|t tags IH]; intros acc links Hrun;
    cbn [foldl mbind option_bind] in Hrun.
  - injection Hrun as <-. split; [by left|].
    intros [H | (t & ? & Ht & _)]; [done|]. by apply elem_of_nil in Ht.
  - unfold add_document at 2, add_joined in Hrun.
    destruct (tag_attrs t !! "href") as [href|] eqn:Hhref.
    + destruct (is_media_file href (MEDIA_EXTENSIONS Documents)) eqn:Hdoc.
      * destruct (urljoin base_url href) as [full_url|] eqn:Hjoin;
          [|by rewrite foldl_raised in Hrun].
        apply IH in Hrun. rewrite Hrun, elem_of_union, elem_of_singleton. split.
        -- intros [[-> | Hacc] | (t' & href' & Ht' & Hrest)].
           ++ right. exists t, href. split_and!; [by left|done..].
           ++ by left.
           ++ right. exists t', href'. split; [by right|done].
        -- intros [Hacc | (t' & href' & Ht' & Hhref' & Hdoc' & Hjoin')];
             [by left; right|].
           apply elem_of_cons in Ht' as [-> | Ht']; [|right; by exists t', href'].
           left; left. rewrite Hhref in Hhref'. injection Hhref' as <-.
           rewrite Hjoin in Hjoin'. by injection Hjoin'.
      * apply IH in Hrun. rewrite Hrun. split.
        -- intros [Hacc | (t' & href' & Ht' & Hrest)]; [by left|].
           right. exists t', href'. split; [by right|done].
        -- intros [Hacc | (t' & href' & Ht' & Hhref' & Hdoc' & Hjoin')]; [by left|].
           apply elem_of_cons in Ht' as [-> | Ht']; [congruence|].
           right. by exists t', href'.
    + apply IH in Hrun. rewrite Hrun. split.
      * intros [Hacc | (t' & href' & Ht' & Hrest)]; [by left|].
        right. exists t', href'. split; [by right|done].
      * intros [Hacc | (t' & href' & Ht' & Hhref' & Hrest)]; [by left|].
        apply elem_of_cons in Ht' as [-> | Ht']; [congruence|].
        right. by exists t', href'.
Qed.

Lemma documents_loop_total urljoin base_url (tags : list tag) :
  (forall href, is_Some (urljoin base_url href)) ->
  forall acc,
    is_Some (foldl (fun acc t => links ← acc; add_document urljoin base_url links t)
               (Some acc) tags).
Proof.
  intros Hjoin. induction tags as [|t tags IH]; intros acc;
    cbn [foldl mbind option_bind]; [done|].
  unfold add_document at 2, add_joined.
  destruct (tag_attrs t !! "href") as [href|]; [|apply IH].
  destruct (is_media_file href _); [|apply IH].
  destruct (Hjoin href) as [full_url ->]. apply IH.
Qed.

(** C7, as the code has it.  For documents, [extract_media_links] returns
    (it raises only if [urljoin] does) exactly the joins with the base URL
    of the [href] values of the [a] tags whose [href], as written in the
    page and lowercased, ends with [.pdf], [.epub], [.docx] or [.txt];
    being a set, it holds each once. *)
Theorem documents_by_href_suffix urljoin page base_url :
  ((forall href, is_Some (urljoin base_url href)) ->
   is_Some (extract_media_links urljoin page base_url Documents)) /\
  (forall links,
     extract_media_links urljoin page base_url Documents = Some links ->
     (forall link,
        link ∈ links <->
        exists t href pre ext,
          t ∈ page /\ tag_name t = "a" /\ tag_attrs t !! "href" = Some href /\
          ext ∈ [".pdf"; ".epub"; ".docx"; ".txt"] /\
          PyStr.lower href = pre +:+ ext /\
          urljoin base_url href = Some link) /\
     NoDup (elements links)).
Proof.
  unfold extract_media_links. split.
  - intros Hjoin. by apply documents_loop_total.
  - intros links Hrun. split; [|apply NoDup_elements]. intros link.
    rewrite (documents_loop_elem_of _ _ link _ _ _ Hrun).
    unfold find_all_a_href. split.
    + intros [H | (t & href & Ht & Hhref & Hdoc & Hlink)];
        [by apply not_elem_of_empty in H|].
      apply list_elem_of_filter in Ht as [[Hname _] Ht].
      apply is_media_file_spec in Hdoc as (pre & ext & Hext & Hpre).
      by exists t, href, pre, ext.
    + intros (t & href & pre & ext & Ht & Hname & Hhref & Hext & Hpre & Hlink).
      right. exists t, href. split_and!; [|done| |done].
      * apply list_elem_of_filter. split; [|done]. split; [done|]. by rewrite Hhref.
      * apply is_media_file_spec. by exists pre, ext.
Qed.

Lemma documents_by_href_suffix_witness :
  exists links,
    extract_media_links SimpleUrl.urljoin Example.documents_page Example.seed Documents
      = Some links /\
    NoDup (elements links).
Proof.
  destruct (documents_by_href_suffix SimpleUrl.urljoin Example.documents_page
              Example.seed) as [Htotal Hlinks].
  destruct Htotal as [links Hrun].
  - intros href. unfold SimpleUrl.urljoin.
    destruct (SimpleUrl.after_scheme href); [by eexists|].
    destruct (PyStr.rfind "/" Example.seed); by eexists.
  - exists links. split; [exact Hrun|]. exact (proj2 (Hlinks links Hrun)).
Defined.

(** C7 as stated fails.  Of the two links of the example page, the code
    keeps the one whose [href] string ends with [.pdf] although the path it
    resolves to is [/view], and drops the one whose resolved path
    [/b.pdf] ends with [.pdf] because a query follows it. *)
Lemma documents_not_by_resolved_path :
  elements <$> extract_media_links SimpleUrl.urljoin
                 Example.documents_page Example.seed Documents
    = Some ["http://h.org/view?file=a.pdf"] /\
  SimpleUrl.path "http://h.org/view?file=a.pdf" = "/view" /\
  SimpleUrl.path "http://h.org/b.pdf?download=1" = "/b.pdf" /\
  elements (documents_by_resolved_path SimpleUrl.urljoin SimpleUrl.path
              Example.documents_page Example.seed)
    = ["http://h.org/b.pdf?download=1"] /\
  extract_media_links SimpleUrl.urljoin
    Example.documents_page Example.seed Documents
  <> Some (documents_by_resolved_path SimpleUrl.urljoin SimpleUrl.path
             Example.documents_page Example.seed).
Proof.
  split_and!; try (vm_compute; reflexivity).
  intros Heq. apply (f_equal (fmap elements)) in Heq. vm_compute in Heq. discriminate.
Qed.

(** ** The download workers *)

(** Truncation towards zero does not go below an integer lower bound. *)
Lemma int_of_Q_lower_bound (x : Q) (m : Z) :
  (inject_Z m <= x)%Q -> m <= int_of_Q x.
Proof.
  destruct x as [a d]. unfold Qle, int_of_Q, inject_Z; cbn [Qnum Qden].
  intros Hle. destruct (Z.le_gt_cases 0 a) as [Hpos | Hneg].
  - rewrite Z.quot_div_nonneg by lia. apply Z.div_le_lower_bound; lia.
  - rewrite <- (Z.opp_involutive a), Z.quot_opp_l by lia.
    rewrite Z.quot_div_nonneg by lia.
    assert ((- a) / Z.pos d <= - m); [|lia].
    apply Z.div_le_upper_bound; lia.
Qed.

(** Rounding to the nearest moves by at most half a unit, and chooses the
    even neighbour when both are as near. *)
Lemma round_half_even_spec (a k : Z) :
  0 <= a -> 0 < k ->
  2 * Z.abs (PyFloat.round_half_even a k * 2 ^ k - a) <= 2 ^ k /\
  (2 * Z.abs (PyFloat.round_half_even a k * 2 ^ k - a) = 2 ^ k ->
   Z.even (PyFloat.round_half_even a k) = true).
Proof.
  intros Ha Hk. unfold PyFloat.round_half_even.
  rewrite Z.shiftr_div_pow2, Z.land_ones, Z.shiftl_1_l by lia.
  assert (Hpow : 2 ^ k = 2 * 2 ^ (k - 1)).
  { rewrite <- Z.pow_succ_r by lia. f_equal. lia. }
  assert (Hhalf : 0 < 2 ^ (k - 1)) by (apply Z.pow_pos_nonneg; lia).
  pose proof (Z.div_mod a (2 ^ k) ltac:(lia)) as Hdiv.
  pose proof (Z.mod_pos_bound a (2 ^ k) ltac:(lia)) as Hmod.
  set (q := a / 2 ^ k) in *. set (rest := a mod 2 ^ k) in *.
  set (half := 2 ^ (k - 1)) in *.
  destruct (Z.ltb_spec half rest) as [Hgt | Hle]; cbn [orb].
  - split; [lia|]. intros Htie. lia.
  - destruct (Z.eqb_spec rest half) as [Heq | Hne]; cbn [andb].
    + destruct (Z.odd q) eqn:Hodd.
      * split; [lia|]. intros _. by rewrite Z.even_add, <- Z.negb_odd, Hodd.
      * split; [lia|]. intros _. by rewrite <- Z.negb_odd, Hodd.
    + split; [lia|]. intros Htie. lia.
Qed.

(** The rounded integer is a multiple of the unit in the last place and is
    at most half a unit away. *)
Lemma nearest_spec (n : Z) :
  let ulp := 2 ^ (Z.log2 (Z.abs n) + 1 - 53) in
  53 <= Z.log2 (Z.abs n) ->
  (ulp | PyFloat.nearest n) /\ 2 * Z.abs (PyFloat.nearest n - n) <= ulp.
Proof.
  intros ulp Hbig. unfold PyFloat.nearest, PyFloat.round_53.
  destruct (Z.leb_spec (Z.log2 (Z.abs n) + 1 - 53) 0) as [Hsmall | Hexcess]; [lia|].
  rewrite Z.shiftl_mul_pow2 by lia. fold ulp.
  pose proof (round_half_even_spec (Z.abs n) (Z.log2 (Z.abs n) + 1 - 53)
                ltac:(lia) Hexcess) as [Hclose _].
  fold ulp in Hclose.
  set (m := PyFloat.round_half_even (Z.abs n) (Z.log2 (Z.abs n) + 1 - 53)) in *.
  split.
  - exists (Z.sgn n * m). lia.
  - destruct n as [|n|n]; cbn [Z.sgn Z.abs] in *; lia.
Qed.

(** An [int] of at most 53 bits is a float. *)
Lemma nearest_exact (n : Z) : Z.abs n < 2 ^ 53 -> PyFloat.nearest n = n.
Proof.
  intros Hn. unfold PyFloat.nearest, PyFloat.round_53.
  assert (Hlog : Z.log2 (Z.abs n) < 53).
  { destruct (Z.eq_dec (Z.abs n) 0) as [-> | Hnz]; [done|].
    apply Z.log2_lt_pow2; lia. }
  destruct (Z.leb_spec (Z.log2 (Z.abs n) + 1 - 53) 0) as [_ | Hbig]; [|lia].
  destruct n; simpl; lia.
Qed.

(** Below [2^53] the quotient by 1024 is exact. *)
Lemma div_1024_exact (n : Z) :
  Z.abs n < 2 ^ 53 -> PyFloat.div_1024 n = Some (n # 1024)%Q.
Proof.
  intros Hn. unfold PyFloat.div_1024. rewrite (nearest_exact n Hn).
  destruct (Z.leb_spec (2 ^ 1034) (Z.abs n)) as [Hbig | _]; [|done].
  assert (2 ^ 53 < 2 ^ 1034) by (apply Z.pow_lt_mono_r; lia). lia.
Qed.

Lemma declared_size_exact (r : response) (n : Z) :
  content_length r = HeaderInt n -> Z.abs n < 2 ^ 53 ->
  declared_size_kb r = Some (n # 1024)%Q.
Proof.
  intros Hr Hn. unfold declared_size_kb, declared_length. rewrite Hr.
  by apply div_1024_exact.
Qed.

Lemma declared_size_absent (r : response) :
  content_length r = HeaderAbsent -> declared_size_kb r = Some (0 # 1024)%Q.
Proof. intros Hr. unfold declared_size_kb, declared_length. by rewrite Hr. Qed.

(** The float the code computes from an oversized header: the quotient of
    [2^54 - 1] is rounded up to [2^44], and that of [2^1040] is no float. *)
Lemma rounded_sizes :
  PyFloat.div_1024 (2 ^ 54 - 1) = Some (2 ^ 54 # 1024)%Q /\
  int_of_Q (2 ^ 54 # 1024) = 2 ^ 44 /\
  Z.quot (2 ^ 54 - 1) 1024 = 2 ^ 44 - 1 /\
  PyFloat.div_1024 (2 ^ 1040) = None.
Proof. split_and!; vm_compute; reflexivity. Qed.

Lemma Qlt_declared (n m : Z) : (n # 1024 < inject_Z m)%Q <-> n < 1024 * m.
Proof. unfold Qlt, inject_Z; cbn [Qnum Qden]. split; lia. Qed.

Lemma Qle_declared (n m : Z) : (inject_Z m <= n # 1024)%Q <-> 1024 * m <= n.
Proof. unfold Qle, inject_Z; cbn [Qnum Qden]. split; lia. Qed.

Section WorkerFacts.

Variable url_path : string -> string.
Variable min_size_kb : Z.
Variable max_media_per_type : gmap media_type Z.

(** The program's functions at the parameters of this section. *)
Local Abbreviation iteration := (process_item url_path min_size_kb max_media_per_type).
Local Abbreviation step := (pool_step url_path min_size_kb max_media_per_type).
Local Abbreviation quota_hit := (quota_reached max_media_per_type).

(** What an iteration does when the quota is open, the server answers and
    the write completes: the declared size alone decides. *)
Lemma process_item_sized env item r size_kb count ledger fs :
  quota_hit count (item_type item) = false ->
  env_response env = Some r ->
  declared_size_kb r = Some size_kb ->
  env_write env = WriteCompletes ->
  iteration env item count ledger fs =
    if Qlt_le_dec size_kb (inject_Z min_size_kb) then (count, ledger, fs)
    else (<[item_type item := get0 count (item_type item) + 1]> count,
          ledger ++ [saved_record url_path env item size_kb],
          <[ [media_type_name (item_type item);
              choose_filename url_path (item_url item) (env_randint env)]
             := FileBytes (content r) ]> fs).
Proof.
  intros Hquota Hresp Hsize Hwrite. unfold process_item.
  by rewrite Hquota, Hresp, Hsize, Hwrite.
Qed.

(** The same for a declared length below [2^53], where the quotient is
    exact. *)
Lemma process_item_served env item r n count ledger fs :
  quota_hit count (item_type item) = false ->
  env_response env = Some r ->
  content_length r = HeaderInt n ->
  Z.abs n < 2 ^ 53 ->
  env_write env = WriteCompletes ->
  iteration env item count ledger fs =
    if n <? 1024 * min_size_kb then (count, ledger, fs)
    else (<[item_type item := get0 count (item_type item) + 1]> count,
          ledger ++ [saved_record url_path env item (n # 1024)],
          <[ [media_type_name (item_type item);
              choose_filename url_path (item_url item) (env_randint env)]
             := FileBytes (content r) ]> fs).
Proof.
  intros Hquota Hresp Hr Hn Hwrite.
  rewrite (process_item_sized env item r (n # 1024)%Q)
    by auto using declared_size_exact.
  destruct (Qlt_le_dec (n # 1024) (inject_Z min_size_kb)) as [Hlt | Hle].
  - apply Qlt_declared in Hlt. apply Z.ltb_lt in Hlt. by rewrite Hlt.
  - apply Qle_declared in Hle. apply Z.ltb_ge in Hle. by rewrite Hle.
Qed.

(** An iteration leaves the ledger and the worker's counts alone, or it
    saved the item: then the quota was open, the declared size was not
    below the minimum, and the record carries that size truncated. *)
Lemma process_item_cases env item count ledger fs :
  (exists fs', iteration env item count ledger fs = (count, ledger, fs')) \/
  (exists r size_kb,
     quota_hit count (item_type item) = false /\
     env_response env = Some r /\ declared_size_kb r = Some size_kb /\
     (inject_Z min_size_kb <= size_kb)%Q /\
     iteration env item count ledger fs =
       (<[item_type item := get0 count (item_type item) + 1]> count,
        ledger ++ [saved_record url_path env item size_kb],
        <[ [media_type_name (item_type item);
            choose_filename url_path (item_url item) (env_randint env)]
           := FileBytes (content r) ]> fs)).
Proof.
  unfold process_item.
  destruct (quota_hit count (item_type item)) eqn:Hquota; [left; by eexists|].
  destruct (env_response env) as [r|] eqn:Hresp; [|left; by eexists].
  destruct (declared_size_kb r) as [size_kb|] eqn:Hsize; [|left; by eexists].
  destruct (Qlt_le_dec size_kb (inject_Z min_size_kb)) as [Hlt | Hle];
    [left; by eexists|].
  destruct (env_write env) as [|[data|]] eqn:Hwrite; [|left; by eexists..].
  right. by exists r, size_kb.
Qed.

(** A step keeps the number of workers and only shortens the queue. *)
Lemma pool_step_shape p p' :
  step p p' ->
  length (workers p') = length (workers p) /\ queue p' `suffix_of` queue p.
Proof.
  intros Hstep. destruct Hstep as [p i w _ _ _ | p i w _ _ _ | p i w item rest env _ _ Hq _].
  - simpl. by rewrite length_insert.
  - simpl. by rewrite length_insert.
  - unfold run_item.
    destruct (iteration env item (media_count w) (downloaded_media p) (files p))
      as [[count ledger] fs].
    simpl. rewrite length_insert. split; [done|].
    rewrite Hq. by apply suffix_cons_r.
Qed.

Lemma pool_steps_shape p p' :
  rtc step p p' ->
  length (workers p') = length (workers p) /\ queue p' `suffix_of` queue p.
Proof.
  induction 1 as [p | p p1 p2 Hstep _ [IHw IHq]]; [done|].
  apply pool_step_shape in Hstep as [Hw Hq]. split; [congruence|].
  by etrans.
Qed.

(** A step keeps a property of all the records that every saved record
    has. *)
Lemma pool_step_ledger (P : download_record -> Prop) p p' :
  (forall env item size_kb,
     (inject_Z min_size_kb <= size_kb)%Q ->
     P (saved_record url_path env item size_kb)) ->
  step p p' -> Forall P (downloaded_media p) -> Forall P (downloaded_media p').
Proof.
  intros Hsaved Hstep Hledger.
  destruct Hstep as [p i w _ _ _ | p i w _ _ _ | p i w item rest env _ _ _ _];
    [done..|].
  unfold run_item.
  destruct (process_item_cases env item (media_count w) (downloaded_media p) (files p))
    as [[fs' ->] | (r & n & _ & _ & _ & Hmin & ->)]; [done|].
  simpl. apply Forall_app. split; [done|]. apply Forall_singleton. by apply Hsaved.
Qed.

Lemma pool_steps_ledger (P : download_record -> Prop) p p' :
  (forall env item size_kb,
     (inject_Z min_size_kb <= size_kb)%Q ->
     P (saved_record url_path env item size_kb)) ->
  rtc step p p' -> Forall P (downloaded_media p) -> Forall P (downloaded_media p').
Proof.
  intros Hsaved. induction 1 as [p | p p1 p2 Hstep _ IH]; [done|].
  intros Hledger. apply IH. by eapply pool_step_ledger.
Qed.

(** The computed moves are moves of the pool. *)
Lemma worker_step_sound env i p p' :
  worker_step url_path min_size_kb max_media_per_type env i p = Some p' -> step p p'.
Proof.
  unfold worker_step. intros Hstep.
  destruct (workers p !! i) as [w|] eqn:Hw; [|done].
  destruct (phase w) eqn:Hphase; [| |done].
  - destruct (queue p) as [|item rest] eqn:Hq; simplify_eq.
    + by apply step_queue_empty.
    + apply step_queue_nonempty; [done..|]. by rewrite Hq.
  - destruct (queue p) as [|item rest] eqn:Hq; [done|].
    case_bool_decide as Hrand; [|done]. simplify_eq.
    by apply step_item.
Qed.

Lemma run_schedule_sound schedule p p' :
  run_schedule url_path min_size_kb max_media_per_type schedule p = Some p' ->
  rtc step p p'.
Proof.
  revert p. induction schedule as [|[i env] schedule IH]; intros p Hrun; simpl in Hrun.
  - by simplify_eq.
  - destruct (worker_step _ _ _ env i p) as [p1|] eqn:Hstep; [|done].
    eapply rtc_l; [by eapply worker_step_sound | by apply IH].
Qed.

(** *** What the quota check bounds *)

Lemma count_type_snoc m ledger r :
  count_type m (ledger ++ [r]) =
  (count_type m ledger + if decide (rec_type r = m) then 1 else 0)%nat.
Proof.
  unfold count_type. rewrite filter_app, length_app. f_equal.
  rewrite filter_cons, filter_nil. by case_decide.
Qed.

Lemma get0_insert (count : gmap media_type Z) k v m :
  get0 (<[k := v]> count) m = if decide (k = m) then v else get0 count m.
Proof.
  unfold get0. case_decide as Hk.
  - subst. by rewrite lookup_insert_eq.
  - by rewrite lookup_insert_ne.
Qed.

Lemma quota_open count m :
  quota_hit count m = false ->
  0 < get0 max_media_per_type m ->
  get0 count m < get0 max_media_per_type m.
Proof.
  unfold quota_reached. intros Hopen Hlimit.
  apply andb_false_iff in Hopen as [Hzero | Hbelow].
  - apply negb_false_iff, Z.eqb_eq in Hzero. lia.
  - by apply Z.leb_gt in Hbelow.
Qed.

(** An iteration raises the worker's count of a type by the number of
    records of that type it appends, and keeps it within a positive
    limit. *)
Lemma process_item_counts env item count ledger fs count' ledger' fs' m :
  iteration env item count ledger fs = (count', ledger', fs') ->
  get0 count' m - get0 count m
    = Z.of_nat (count_type m ledger') - Z.of_nat (count_type m ledger) /\
  (0 < get0 max_media_per_type m ->
   get0 count m <= get0 max_media_per_type m ->
   get0 count' m <= get0 max_media_per_type m).
Proof.
  intros Hrun.
  destruct (process_item_cases env item count ledger fs)
    as [[fs1 Hskip] | (r & n & Hquota & _ & _ & _ & Hsave)].
  - rewrite Hskip in Hrun. simplify_eq. split; [lia|done].
  - rewrite Hsave in Hrun. simplify_eq.
    rewrite count_type_snoc, get0_insert. unfold saved_record; cbn [rec_type].
    case_decide as Htype; [|split; [lia|done]].
    subst m. split; [lia|]. intros Hlimit _.
    pose proof (quota_open _ _ Hquota Hlimit). lia.
Qed.

Lemma counted_insert m (ws : list worker) i w w' :
  ws !! i = Some w ->
  counted m (<[i := w']> ws)
    = counted m ws - get0 (media_count w) m + get0 (media_count w') m.
Proof.
  revert i. induction ws as [|w0 ws IH]; intros i Hi; [done|].
  destruct i as [|i]; simpl in *.
  - simplify_eq. lia.
  - rewrite (IH i Hi). lia.
Qed.

Lemma counted_bound m limit (ws : list worker) :
  0 <= limit ->
  Forall (fun w => get0 (media_count w) m <= limit) ws ->
  counted m ws <= Z.of_nat (length ws) * limit.
Proof.
  intros Hlimit. induction 1 as [|w ws Hw _ IH]; simpl; [lia|]. nia.
Qed.

Lemma quota_per_worker_step m p p' :
  0 < get0 max_media_per_type m ->
  step p p' ->
  quota_per_worker max_media_per_type m p ->
  quota_per_worker max_media_per_type m p'.
Proof.
  intros Hlimit Hstep [Hsum Hall].
  destruct Hstep as [p i w Hw _ _ | p i w Hw _ _ | p i w item rest env Hw _ _ _].
  - split; simpl.
    + rewrite (counted_insert _ _ _ w) by done. simpl. lia.
    + apply Forall_insert; [done|]. exact (Forall_lookup_1 _ _ _ _ Hall Hw).
  - split; simpl.
    + rewrite (counted_insert _ _ _ w) by done. simpl. lia.
    + apply Forall_insert; [done|]. exact (Forall_lookup_1 _ _ _ _ Hall Hw).
  - unfold run_item.
    destruct (iteration env item (media_count w) (downloaded_media p) (files p))
      as [[count ledger] fs] eqn:Hrun.
    apply (process_item_counts _ _ _ _ _ _ _ _ m) in Hrun as [Hdiff Hkeep].
    pose proof (Forall_lookup_1 _ _ _ _ Hall Hw) as Hbound. simpl in Hbound.
    split; simpl.
    + rewrite (counted_insert _ _ _ w) by done. simpl. lia.
    + apply Forall_insert; [done|]. simpl. by apply Hkeep.
Qed.

(** What the code guarantees for a positive limit: every thread stays
    within the limit by its own count, so a pool of [n] threads saves at
    most [n] times the limit; a pool of one thread keeps the limit. *)
Lemma quota_per_thread m n q fs0 p :
  0 < get0 max_media_per_type m ->
  rtc step (start_pool n q fs0) p ->
  Z.of_nat (count_type m (downloaded_media p))
    <= Z.of_nat n * get0 max_media_per_type m.
Proof.
  intros Hlimit Hsteps.
  assert (Hinv : quota_per_worker max_media_per_type m p).
  { revert Hsteps.
    assert (Hstart : quota_per_worker max_media_per_type m (start_pool n q fs0)).
    { split; cbn [start_pool downloaded_media workers].
      - induction n as [|n IH]; [done|]. cbn [replicate counted foldr] in *.
        unfold counted in IH. rewrite <- IH. done.
      - apply Forall_replicate. cbn [media_count]. unfold get0 at 1.
        rewrite lookup_empty. simpl. lia. }
    revert Hstart. generalize (start_pool n q fs0). intros p0 Hstart Hsteps.
    induction Hsteps as [p0 | p0 p1 p2 Hstep _ IH]; [done|].
    apply IH. by eapply quota_per_worker_step. }
  destruct Hinv as [Hsum Hall].
  apply pool_steps_shape in Hsteps as [Hlen _].
  cbn [start_pool workers] in Hlen. rewrite length_replicate in Hlen.
  rewrite Hsum, <- Hlen. apply counted_bound; [lia|done].
Qed.

(** An iteration on an item declared below the minimum changes nothing. *)
Lemma process_item_undersized env item r size_kb count ledger fs :
  env_response env = Some r ->
  declared_size_kb r = Some size_kb ->
  (size_kb < inject_Z min_size_kb)%Q ->
  iteration env item count ledger fs = (count, ledger, fs).
Proof.
  intros Hresp Hsize Hsmall.
  unfold process_item. destruct (quota_hit count (item_type item)); [done|].
  rewrite Hresp, Hsize.
  destruct (Qlt_le_dec size_kb (inject_Z min_size_kb)) as [_ | Hle]; [done|].
  by apply Qlt_not_le in Hsmall.
Qed.

(** C5. An item whose declared size is below [min_size_kb] is abandoned
    before anything is written: the iteration leaves the ledger, the files
    and the worker's counts as they were.  The size is the float the code
    computes from the [Content-Length] header; for a header below [2^53] in
    absolute value it is the exact quotient, and the item is abandoned
    whenever the length is below [1024 * min_size_kb].  So, whatever the
    number of workers and their interleaving, no record of
    [downloaded_media] ever has a size below [min_size_kb]. *)
Theorem undersized_item_abandoned :
  (forall env item r size_kb count ledger fs,
     env_response env = Some r ->
     declared_size_kb r = Some size_kb ->
     (size_kb < inject_Z min_size_kb)%Q ->
     iteration env item count ledger fs = (count, ledger, fs)) /\
  (forall env item r n count ledger fs,
     env_response env = Some r ->
     content_length r = HeaderInt n ->
     Z.abs n < 2 ^ 53 ->
     n < 1024 * min_size_kb ->
     iteration env item count ledger fs = (count, ledger, fs)) /\
  (forall n q fs0 p,
     rtc step (start_pool n q fs0) p ->
     Forall (fun r => min_size_kb <= rec_size_kb r) (downloaded_media p)).
Proof.
  split_and!.
  - intros. by eapply process_item_undersized.
  - intros env item r n count ledger fs Hresp Hr Hn Hsmall.
    apply (process_item_undersized env item r (n # 1024)%Q); [done| |].
    + by apply declared_size_exact.
    + by apply Qlt_declared.
  - intros n q fs0 p Hsteps.
    eapply (pool_steps_ledger (fun r => min_size_kb <= rec_size_kb r));
      [|exact Hsteps|by apply Forall_nil].
    intros env item size_kb Hmin. unfold saved_record; cbn [rec_size_kb].
    by apply int_of_Q_lower_bound.
Qed.

(** An iteration reads the header of the response and never its body: two
    responses with the same [Content-Length] give the same counts and the
    same ledger. *)
Lemma process_item_ignores_body r r' randint outcome item count ledger fs :
  content_length r = content_length r' ->
  (iteration (ItemEnv (Some r) randint outcome) item count ledger fs).1 =
  (iteration (ItemEnv (Some r') randint outcome) item count ledger fs).1.
Proof.
  intros Hsame. unfold process_item. cbn [env_response env_write env_randint].
  assert (Hsize : declared_size_kb r = declared_size_kb r')
    by (unfold declared_size_kb, declared_length; by rewrite Hsame).
  rewrite Hsize.
  destruct (quota_hit count (item_type item)); [done|].
  destruct (declared_size_kb r') as [size_kb|]; [|done].
  destruct (Qlt_le_dec size_kb (inject_Z min_size_kb)); [done|].
  by destruct outcome as [|[data|]].
Qed.

(** C9. The [Content-Length] header, 0 when it is missing, is the size of
    an item, whatever the bytes of the body.  With the quota open, the
    server answering and the write completing: for a header [n] below
    [2^53] in absolute value the item is skipped exactly when [n] is below
    [1024 * min_size_kb], and the record of a saved item carries [n]
    divided by 1024 and truncated; for any header the test and the record
    use the float [n / 1024], and the item is dropped when that division
    overflows.  Two responses with the same header and different bodies
    give the same ledger.  A response without the
    header is skipped when [min_size_kb] is positive, and saved with size 0
    when [min_size_kb] is 0. *)
Theorem declared_length_is_the_size :
  (forall env item r n count ledger fs,
     quota_hit count (item_type item) = false ->
     env_response env = Some r ->
     content_length r = HeaderInt n ->
     Z.abs n < 2 ^ 53 ->
     env_write env = WriteCompletes ->
     iteration env item count ledger fs =
       if n <? 1024 * min_size_kb then (count, ledger, fs)
       else (<[item_type item := get0 count (item_type item) + 1]> count,
             ledger ++
               [DownloadRecord (item_url item) (item_type item) (Z.quot n 1024)
                  (choose_filename url_path (item_url item) (env_randint env))
                  (item_source item)],
             <[ [media_type_name (item_type item);
                 choose_filename url_path (item_url item) (env_randint env)]
                := FileBytes (content r) ]> fs)) /\
  (forall env item r n count ledger fs,
     quota_hit count (item_type item) = false ->
     env_response env = Some r ->
     content_length r = HeaderInt n ->
     env_write env = WriteCompletes ->
     iteration env item count ledger fs =
       match PyFloat.div_1024 n with
       | None => (count, ledger, fs)
       | Some size_kb =>
           if Qlt_le_dec size_kb (inject_Z min_size_kb) then (count, ledger, fs)
           else (<[item_type item := get0 count (item_type item) + 1]> count,
                 ledger ++
                   [DownloadRecord (item_url item) (item_type item)
                      (int_of_Q size_kb)
                      (choose_filename url_path (item_url item) (env_randint env))
                      (item_source item)],
                 <[ [media_type_name (item_type item);
                     choose_filename url_path (item_url item) (env_randint env)]
                    := FileBytes (content r) ]> fs)
       end) /\
  (forall r r' randint outcome item count ledger fs,
     content_length r = content_length r' ->
     (iteration (ItemEnv (Some r) randint outcome) item count ledger fs).1 =
     (iteration (ItemEnv (Some r') randint outcome) item count ledger fs).1) /\
  (forall env item r count ledger fs,
     0 < min_size_kb ->
     env_response env = Some r ->
     content_length r = HeaderAbsent ->
     iteration env item count ledger fs = (count, ledger, fs)) /\
  (forall env item r count ledger fs,
     min_size_kb = 0 ->
     quota_hit count (item_type item) = false ->
     env_response env = Some r ->
     content_length r = HeaderAbsent ->
     env_write env = WriteCompletes ->
     iteration env item count ledger fs =
       (<[item_type item := get0 count (item_type item) + 1]> count,
        ledger ++
          [DownloadRecord (item_url item) (item_type item) 0
             (choose_filename url_path (item_url item) (env_randint env))
             (item_source item)],
        <[ [media_type_name (item_type item);
            choose_filename url_path (item_url item) (env_randint env)]
           := FileBytes (content r) ]> fs)).
Proof.
  split_and!.
  - intros. by apply process_item_served.
  - intros env item r n count ledger fs Hquota Hresp Hr Hwrite.
    assert (Hsize : declared_size_kb r = PyFloat.div_1024 n)
      by (unfold declared_size_kb, declared_length; by rewrite Hr).
    destruct (PyFloat.div_1024 n) as [size_kb|].
    + by apply process_item_sized.
    + unfold process_item. by rewrite Hquota, Hresp, Hsize.
  - apply process_item_ignores_body.
  - intros env item r count ledger fs Hmin Hresp Hr.
    apply (process_item_undersized env item r (0 # 1024)%Q); [done| |].
    + by apply declared_size_absent.
    + apply Qlt_declared. lia.
  - intros env item r count ledger fs Hmin Hquota Hresp Hr Hwrite.
    rewrite (process_item_sized env item r (0 # 1024)%Q)
      by auto using declared_size_absent.
    rewrite Hmin. reflexivity.
Qed.

End WorkerFacts.

(** ** [main] *)

Section MainFacts.

Variable urljoin : string -> string -> option string.
Variable netloc : string -> string.
Variable url_path : string -> string.
Variable get_page_content : string -> option soup.

(** The program's functions at the parameters of this section. *)
Local Abbreviation the_crawl := (main_crawl urljoin netloc get_page_content).
Local Abbreviation pool_of := (main_pool urljoin netloc url_path get_page_content).
Local Abbreviation run_of := (main_run urljoin netloc url_path get_page_content).

Lemma main_crawl_total cfg : is_Some (the_crawl cfg).
Proof. apply crawl_from_total. Qed.

(** The computed runs are runs of [main]. *)
Lemma main_schedule_sound cfg fs0 schedule ledger fs :
  main_schedule urljoin netloc url_path get_page_content cfg fs0 schedule
    = Some (ledger, fs) ->
  run_of cfg fs0 ledger fs.
Proof.
  unfold main_schedule. intros Hrun.
  destruct (the_crawl cfg) as [st|] eqn:Hcrawl; [|done].
  destruct (run_schedule _ _ _ schedule _) as [p|] eqn:Hpool; [|done].
  destruct (forallb _ (workers p)) eqn:Hjoined; [|done].
  simplify_eq. apply main_run_intro.
  - exists st. split; [done|]. by eapply run_schedule_sound.
  - unfold all_joined. apply Forall_forall. intros w Hw.
    rewrite forallb_forall in Hjoined.
    apply list_elem_of_In in Hw. apply Hjoined in Hw.
    by apply bool_decide_eq_true in Hw.
Qed.

(** A pool without workers does not move. *)
Lemma no_workers_no_steps min_size_kb max_media_per_type p p' :
  workers p = [] ->
  rtc (pool_step url_path min_size_kb max_media_per_type) p p' -> p' = p.
Proof.
  intros Hnone Hsteps. destruct Hsteps as [|p p1 p2 Hstep _]; [done|].
  exfalso.
  destruct Hstep as [p i w Hw _ _ | p i w Hw _ _ | p i w item rest env Hw _ _ _];
    by rewrite Hnone, lookup_nil in Hw.
Qed.

(** C8. The pool of a run of [main] is started on the queue the traversal
    left, once the traversal has returned, with
    [min(MAX_THREADS, len(queue))] workers; from then on the number of
    workers stays what it is, and the queue only loses items from its
    head. *)
Theorem pool_size_fixed cfg fs0 :
  (exists st,
     the_crawl cfg = Some st /\
     pool_of cfg fs0
       (start_pool (thread_count (download_queue st)) (download_queue st) fs0)) /\
  (forall p,
     pool_of cfg fs0 p ->
     exists st,
       the_crawl cfg = Some st /\
       Z.of_nat (length (workers p))
         = Z.min MAX_THREADS (Z.of_nat (length (download_queue st))) /\
       queue p `suffix_of` download_queue st).
Proof.
  split.
  - destruct (main_crawl_total cfg) as [st Hst]. exists st. split; [done|].
    exists st. split; [done|]. apply rtc_refl.
  - intros p (st & Hst & Hsteps). exists st. split; [done|].
    apply pool_steps_shape in Hsteps as [Hworkers Hqueue].
    split; [|exact Hqueue].
    rewrite Hworkers. cbn [start_pool workers]. rewrite length_replicate.
    unfold thread_count, MAX_THREADS. lia.
Qed.

(** C10. When the traversal queues nothing, [main] starts no thread and
    still writes the manifest: [results.json] holds the empty list,
    [results.csv] the header row alone, and [media.zip] holds every file of
    the output directory whose name is not [media.zip], and no other. *)
Theorem empty_queue_manifest cfg fs0 st :
  the_crawl cfg = Some st ->
  download_queue st = [] ->
  thread_count (download_queue st) = 0%nat /\
  (exists ledger fs, run_of cfg fs0 ledger fs) /\
  (forall ledger fs,
     run_of cfg fs0 ledger fs ->
     ledger = [] /\
     fs !! ["results.json"] = Some (FileJson []) /\
     fs !! ["results.csv"]
       = Some (FileCsv [["url"; "type"; "size_kb"; "filename"; "source_page"]]) /\
     exists members,
       fs !! ["media.zip"] = Some (FileZip members) /\
       (forall path, last path = Some "media.zip" -> members !! path = None) /\
       (forall path, last path <> Some "media.zip" -> members !! path = fs !! path)).
Proof.
  intros Hcrawl Hqueue. rewrite Hqueue. split; [done|]. split.
  - exists [], (save_results [] fs0).
    apply (main_run_intro _ _ _ _ cfg fs0 (start_pool 0 [] fs0)); [|by apply Forall_nil].
    exists st. split; [done|]. rewrite Hqueue. apply rtc_refl.
  - intros ledger fs Hrun. destruct Hrun as [p (st' & Hcrawl' & Hsteps) _].
    rewrite Hcrawl in Hcrawl'. injection Hcrawl' as <-.
    rewrite Hqueue in Hsteps. apply no_workers_no_steps in Hsteps; [|done].
    subst p. cbn [start_pool downloaded_media files].
    unfold save_results, csv_fieldnames; cbn [map].
    split; [done|].
    set (fs2 := <[ ["results.csv"] := _ ]> (<[ ["results.json"] := _ ]> fs0)).
    split_and!.
    + rewrite lookup_insert_ne by done. unfold fs2.
      rewrite lookup_insert_ne by done. by rewrite lookup_insert_eq.
    + rewrite lookup_insert_ne by done. unfold fs2. by rewrite lookup_insert_eq.
    + exists (zip_members fs2). split_and!.
      * by rewrite lookup_insert_eq.
      * intros path Hlast. unfold zip_members.
        apply map_lookup_filter_None. right. intros f _ Hkeep. by apply Hkeep.
      * intros path Hlast.
        rewrite lookup_insert_ne by (intros <-; by apply Hlast).
        unfold zip_members. apply option_eq. intros f.
        rewrite map_lookup_filter_Some. split; [by intros [? _] | by intros ?].
Qed.

End MainFacts.

(** ** The program on the example web *)

Lemma undersized_item_abandoned_witness :
  env_response Example.thumbnail_served = Some Example.thumbnail /\
  content_length Example.thumbnail = HeaderInt 100 /\
  Z.abs 100 < 2 ^ 53 /\
  100 < 1024 * 1 /\
  process_item SimpleUrl.path 1 ∅ Example.thumbnail_served Example.first_image ∅ [] ∅
    = (∅, [], ∅).
Proof.
  split_and!; [reflexivity..|].
  apply (proj1 (proj2 (undersized_item_abandoned SimpleUrl.path 1 ∅))
           Example.thumbnail_served Example.first_image Example.thumbnail 100);
    reflexivity.
Defined.

Lemma declared_length_is_the_size_witness :
  quota_reached ∅ ∅ (item_type Example.first_image) = false /\
  Z.abs 5000 < 2 ^ 53 /\
  (process_item SimpleUrl.path 0 ∅
     (ItemEnv (Some (Response (HeaderInt 5000) "PNG")) 1000 WriteCompletes)
     Example.first_image ∅ [] ∅).1.2
    = [DownloadRecord "http://h.org/1.png" Images 4 "1.png" "http://h.org/"].
Proof.
  split_and!; [reflexivity..|].
  rewrite (proj1 (declared_length_is_the_size SimpleUrl.path 0 ∅)
             (ItemEnv (Some (Response (HeaderInt 5000) "PNG")) 1000 WriteCompletes)
             Example.first_image
             (Response (HeaderInt 5000) "PNG") 5000); reflexivity.
Defined.

(** Headers of 54 bits and more: the size of [2^54 - 1] bytes is rounded
    up to [2^44] KB, which passes a minimum of [2^44] and is the size
    recorded; a header of [2^1040] makes the division raise, and the item
    is dropped. *)
Lemma oversized_headers :
  (process_item SimpleUrl.path (2 ^ 44) ∅
     (ItemEnv (Some (Response (HeaderInt (2 ^ 54 - 1)) "PNG")) 1000 WriteCompletes)
     Example.first_image ∅ [] ∅).1.2
    = [DownloadRecord "http://h.org/1.png" Images (2 ^ 44) "1.png" "http://h.org/"] /\
  process_item SimpleUrl.path 0 ∅
    (ItemEnv (Some (Response (HeaderInt (2 ^ 1040)) "PNG")) 1000 WriteCompletes)
    Example.first_image ∅ [] ∅
    = (∅, [], ∅).
Proof. split; vm_compute; reflexivity. Qed.

Lemma pool_size_fixed_witness :
  exists st,
    main_crawl SimpleUrl.urljoin SimpleUrl.netloc Example.gallery Example.one_image
      = Some st /\
    Z.of_nat (length (workers
       (start_pool (thread_count (download_queue st)) (download_queue st) ∅)))
      = Z.min MAX_THREADS (Z.of_nat (length (download_queue st))).
Proof.
  destruct (pool_size_fixed SimpleUrl.urljoin SimpleUrl.netloc SimpleUrl.path
              Example.gallery Example.one_image ∅) as [(st & Hst & Hpool) Hall].
  exists st. split; [exact Hst|].
  destruct (Hall _ Hpool) as (st' & Hst' & Hsize & _).
  rewrite Hst in Hst'. injection Hst' as <-. exact Hsize.
Defined.

Lemma empty_queue_manifest_witness :
  exists st,
    main_crawl SimpleUrl.urljoin SimpleUrl.netloc Example.gallery Example.audio_only
      = Some st /\
    download_queue st = [] /\
    forall ledger fs,
      main_run SimpleUrl.urljoin SimpleUrl.netloc SimpleUrl.path Example.gallery
        Example.audio_only ∅ ledger fs ->
      ledger = [] /\ fs !! ["results.json"] = Some (FileJson []).
Proof.
  destruct (main_crawl_total SimpleUrl.urljoin SimpleUrl.netloc Example.gallery
              Example.audio_only) as [st Hst].
  assert (Hqueue : download_queue st = []).
  { assert (Hq : download_queue <$>
               main_crawl SimpleUrl.urljoin SimpleUrl.netloc Example.gallery
                 Example.audio_only = Some [])
      by (vm_compute; reflexivity).
    rewrite Hst in Hq. by injection Hq. }
  exists st. split; [exact Hst|]. split; [exact Hqueue|].
  intros ledger fs Hrun.
  destruct (empty_queue_manifest SimpleUrl.urljoin SimpleUrl.netloc SimpleUrl.path
              Example.gallery Example.audio_only ∅ st Hst Hqueue)
    as (_ & _ & Hall).
  destruct (Hall ledger fs Hrun) as (Hledger & Hjson & _). by split.
Defined.

(** The gallery has two images and one is asked for.  When one thread
    handles both items, its count stops it after the first. *)
Example one_thread_keeps_the_quota :
  (fun out => count_type Images out.1)
    <$> Example.main_gallery Example.one_image Example.one_thread = Some 1%nat.
Proof. vm_compute. reflexivity. Qed.

(** C1 fails on the code.  [media_count] is a local of [download_worker]:
    each thread counts its own downloads.  On the gallery, with one image
    asked for, [main] starts two threads; each takes one item with its own
    count at 0, and [downloaded_media] ends with two records of images. *)
Theorem quota_overshoot_by_two_threads :
  get0 (cfg_max_per_type Example.one_image) Images = 1 /\
  exists ledger fs,
    main_run SimpleUrl.urljoin SimpleUrl.netloc SimpleUrl.path Example.gallery
      Example.one_image ∅ ledger fs /\
    count_type Images ledger = 2%nat.
Proof.
  split; [reflexivity|].
  assert (Hcount :
    (fun out => count_type Images out.1)
      <$> Example.main_gallery Example.one_image Example.two_threads = Some 2%nat)
    by (vm_compute; reflexivity).
  destruct (Example.main_gallery Example.one_image Example.two_threads)
    as [[ledger fs]|] eqn:Hrun; [|done].
  exists ledger, fs. split.
  - by apply main_schedule_sound in Hrun.
  - by injection Hcount.
Qed.

(** * Further properties *)

(** ** The extractors *)

Section ExtractorFacts.

Variable urljoin : string -> string -> option string.
Variable netloc : string -> string.

(** The one loop behind the media rules: join each candidate with the base
    URL and add it to the set. *)
Local Abbreviation join_all base_url :=
  (foldl (fun acc src => links ← acc; add_joined urljoin base_url src links)).

Lemma join_all_raised base_url (srcs : list string) :
  join_all base_url None srcs = None.
Proof. by induction srcs. Qed.

Lemma join_all_elem_of base_url link (srcs : list string) :
  forall acc links,
    join_all base_url (Some acc) srcs = Some links ->
    (link ∈ links <->
     link ∈ acc \/ exists src, src ∈ srcs /\ urljoin base_url src = Some link).
Proof.
  induction srcs as [|src srcs IH]; intros acc links Hrun;
    cbn [foldl mbind option_bind] in Hrun.
  - injection Hrun as <-. split; [by left|].
    intros [H | (src & Hsrc & _)]; [done|]. by apply elem_of_nil in Hsrc.
  - unfold add_joined at 2 in Hrun.
    destruct (urljoin base_url src) as [full_url|] eqn:Hjoin;
      [|by rewrite join_all_raised in Hrun].
    apply IH in Hrun. rewrite Hrun, elem_of_union, elem_of_singleton. split.
    + intros [[-> | Hacc] | (src' & Hsrc' & Hjoin')].
      * right. exists src. split; [by left|done].
      * by left.
      * right. exists src'. split; [by right|done].
    + intros [Hacc | (src' & Hsrc' & Hjoin')]; [by left; right|].
      apply elem_of_cons in Hsrc' as [-> | Hsrc'].
      * left; left. congruence.
      * right. by exists src'.
Qed.

Lemma join_all_total base_url (srcs : list string) :
  forall acc,
    is_Some (join_all base_url (Some acc) srcs) <->
    forall src, src ∈ srcs -> is_Some (urljoin base_url src).
Proof.
  induction srcs as [|src srcs IH]; intros acc; cbn [foldl mbind option_bind].
  - split; [|done]. intros _ src Hsrc. by apply elem_of_nil in Hsrc.
  - unfold add_joined at 2.
    destruct (urljoin base_url src) as [full_url|] eqn:Hjoin.
    + rewrite IH. split.
      * intros Hall src' Hsrc'. apply elem_of_cons in Hsrc' as [-> | Hsrc'];
          [by rewrite Hjoin | by apply Hall].
      * intros Hall src' Hsrc'. apply Hall. by right.
    + rewrite join_all_raised. split; [by intros [? ?]|].
      intros Hall. destruct (Hall src) as [full_url Hsome]; [by left|]. congruence.
Qed.

(** A loop that joins the candidate of each key that has one is the loop
    over the candidates. *)
Lemma join_candidates {K} (f : K -> option string) base_url (ks : list K) :
  forall acc,
    foldl (fun acc k =>
             links ← acc;
             match f k with
             | Some src => add_joined urljoin base_url src links
             | None => Some links
             end) acc ks
    = join_all base_url acc (omap f ks).
Proof.
  induction ks as [|k ks IH]; intros acc; [done|].
  cbn [foldl omap list_omap]. rewrite IH. destruct (f k) as [src|].
  - done.
  - by destruct acc.
Qed.

Lemma get_truthy_Some t attr v :
  get_truthy t attr = Some v <-> tag_attrs t !! attr = Some v /\ v <> "".
Proof.
  unfold get_truthy, PyStr.truthy.
  destruct (tag_attrs t !! attr) as [v'|]; [|by split; [|intros [? _]]].
  destruct (String.eqb_spec v' "") as [-> | Hne]; simpl.
  - split; [done|]. intros [Hv Hne]. by injection Hv as <-.
  - split.
    + intros Hv. injection Hv as <-. by split.
    + by intros [Hv _].
Qed.

Lemma elem_of_find_all names page t :
  t ∈ find_all names page <-> tag_name t ∈ names /\ t ∈ page.
Proof. unfold find_all. by rewrite list_elem_of_filter. Qed.

(** The images rule as one loop over its candidates. *)
Lemma extract_images_unfold page base_url :
  extract_media_links urljoin page base_url Images =
  join_all base_url (Some ∅)
    (t ← find_all ["img"; "source"; "meta"] page;
     omap (get_truthy t) ["src"; "data-src"; "content"]).
Proof.
  unfold extract_media_links. generalize (Some (∅ : gset string)).
  induction (find_all ["img"; "source"; "meta"] page) as [|t tags IH]; intros acc;
    [done|].
  cbn [foldl mbind list_bind]. rewrite foldl_app, <- IH. f_equal.
  exact (join_candidates (get_truthy t) base_url ["src"; "data-src"; "content"] acc).
Qed.

(** The videos and audio rule as one loop over its candidates. *)
Lemma extract_sources_unfold page base_url :
  extract_media_links urljoin page base_url Videos =
  join_all base_url (Some ∅)
    (omap (fun t => get_truthy t "src") (find_all ["video"; "audio"; "source"] page)).
Proof.
  unfold extract_media_links.
  exact (join_candidates (fun t => get_truthy t "src") base_url _ (Some ∅)).
Qed.

Lemma elem_of_image_candidates page src :
  src ∈ (t ← find_all ["img"; "source"; "meta"] page;
         omap (get_truthy t) ["src"; "data-src"; "content"]) <->
  exists t attr,
    t ∈ page /\ tag_name t ∈ ["img"; "source"; "meta"] /\
    attr ∈ ["src"; "data-src"; "content"] /\
    tag_attrs t !! attr = Some src /\ src <> "".
Proof.
  rewrite list_elem_of_bind. split.
  - intros (t & Hsrc & Ht). apply elem_of_find_all in Ht as [Hname Ht].
    apply list_elem_of_omap in Hsrc as (attr & Hattr & Hget).
    apply get_truthy_Some in Hget as [Hv Hne]. by exists t, attr.
  - intros (t & attr & Ht & Hname & Hattr & Hv & Hne). exists t. split.
    + apply list_elem_of_omap. exists attr. split; [done|].
      by apply get_truthy_Some.
    + by apply elem_of_find_all.
Qed.

Lemma elem_of_source_candidates page src :
  src ∈ omap (fun t => get_truthy t "src")
          (find_all ["video"; "audio"; "source"] page) <->
  exists t,
    t ∈ page /\ tag_name t ∈ ["video"; "audio"; "source"] /\
    tag_attrs t !! "src" = Some src /\ src <> "".
Proof.
  rewrite list_elem_of_omap. split.
  - intros (t & Ht & Hget). apply elem_of_find_all in Ht as [Hname Ht].
    apply get_truthy_Some in Hget as [Hv Hne]. by exists t.
  - intros (t & Ht & Hname & Hv & Hne). exists t. split.
    + by apply elem_of_find_all.
    + by apply get_truthy_Some.
Qed.

Lemma elem_of_extract_images page base_url links link :
  extract_media_links urljoin page base_url Images = Some links ->
  (link ∈ links <->
   exists t attr v,
     t ∈ page /\ tag_name t ∈ ["img"; "source"; "meta"] /\
     attr ∈ ["src"; "data-src"; "content"] /\
     tag_attrs t !! attr = Some v /\ v <> "" /\
     urljoin base_url v = Some link).
Proof.
  rewrite extract_images_unfold. intros Hrun.
  rewrite (join_all_elem_of _ link _ _ _ Hrun). split.
  - intros [H | (src & Hsrc & Hjoin)]; [by apply not_elem_of_empty in H|].
    apply elem_of_image_candidates in Hsrc as (t & attr & Ht & Hname & Hattr & Hv & Hne).
    by exists t, attr, src.
  - intros (t & attr & v & Ht & Hname & Hattr & Hv & Hne & Hjoin). right.
    exists v. split; [|done]. apply elem_of_image_candidates. by exists t, attr.
Qed.

Lemma elem_of_extract_sources page base_url links link :
  extract_media_links urljoin page base_url Videos = Some links ->
  (link ∈ links <->
   exists t v,
     t ∈ page /\ tag_name t ∈ ["video"; "audio"; "source"] /\
     tag_attrs t !! "src" = Some v /\ v <> "" /\
     urljoin base_url v = Some link).
Proof.
  rewrite extract_sources_unfold. intros Hrun.
  rewrite (join_all_elem_of _ link _ _ _ Hrun). split.
  - intros [H | (src & Hsrc & Hjoin)]; [by apply not_elem_of_empty in H|].
    apply elem_of_source_candidates in Hsrc as (t & Ht & Hname & Hv & Hne).
    by exists t, src.
  - intros (t & v & Ht & Hname & Hv & Hne & Hjoin). right.
    exists v. split; [|done]. apply elem_of_source_candidates. by exists t.
Qed.

(** X1. For images, [extract_media_links] returns exactly the joins with
    the base URL of the non-empty [src], [data-src] and [content] values of
    the [img], [source] and [meta] tags of the page; it raises exactly
    when [urljoin] rejects one of those values. *)
Theorem images_from_three_attributes page base_url :
  (is_Some (extract_media_links urljoin page base_url Images) <->
   forall t attr v,
     t ∈ page -> tag_name t ∈ ["img"; "source"; "meta"] ->
     attr ∈ ["src"; "data-src"; "content"] ->
     tag_attrs t !! attr = Some v -> v <> "" ->
     is_Some (urljoin base_url v)) /\
  (forall links,
     extract_media_links urljoin page base_url Images = Some links ->
     forall link,
       link ∈ links <->
       exists t attr v,
         t ∈ page /\ tag_name t ∈ ["img"; "source"; "meta"] /\
         attr ∈ ["src"; "data-src"; "content"] /\
         tag_attrs t !! attr = Some v /\ v <> "" /\
         urljoin base_url v = Some link).
Proof.
  split.
  - rewrite extract_images_unfold, join_all_total. split.
    + intros Hall t attr v Ht Hname Hattr Hv Hne. apply Hall.
      apply elem_of_image_candidates. by exists t, attr.
    + intros Hall src Hsrc.
      apply elem_of_image_candidates in Hsrc as (t & attr & Ht & Hname & Hattr & Hv & Hne).
      by eapply Hall.
  - intros links Hrun link. by apply elem_of_extract_images.
Qed.

(** X2. For videos, and for audio alike, [extract_media_links] returns
    exactly the joins with the base URL of the non-empty [src] values of
    the [video], [audio] and [source] tags of the page; it raises exactly
    when [urljoin] rejects one of those values.  The two types get the same
    set. *)
Theorem videos_and_audio_from_src page base_url :
  extract_media_links urljoin page base_url Audio
    = extract_media_links urljoin page base_url Videos /\
  (is_Some (extract_media_links urljoin page base_url Videos) <->
   forall t v,
     t ∈ page -> tag_name t ∈ ["video"; "audio"; "source"] ->
     tag_attrs t !! "src" = Some v -> v <> "" ->
     is_Some (urljoin base_url v)) /\
  (forall links,
     extract_media_links urljoin page base_url Videos = Some links ->
     forall link,
       link ∈ links <->
       exists t v,
         t ∈ page /\ tag_name t ∈ ["video"; "audio"; "source"] /\
         tag_attrs t !! "src" = Some v /\ v <> "" /\
         urljoin base_url v = Some link).
Proof.
  split; [reflexivity|]. split.
  - rewrite extract_sources_unfold, join_all_total. split.
    + intros Hall t v Ht Hname Hv Hne. apply Hall.
      apply elem_of_source_candidates. by exists t.
    + intros Hall src Hsrc.
      apply elem_of_source_candidates in Hsrc as (t & Ht & Hname & Hv & Hne).
      by eapply Hall.
  - intros links Hrun link. by apply elem_of_extract_sources.
Qed.

(** X3. The [src] of a [source] tag is taken by the images rule and by the
    videos and audio rule: asked for both types, the traversal queues it
    once as an image and once as a video. *)
Theorem source_tag_is_image_and_video page base_url images videos t v :
  extract_media_links urljoin page base_url Images = Some images ->
  extract_media_links urljoin page base_url Videos = Some videos ->
  t ∈ page -> tag_name t = "source" ->
  tag_attrs t !! "src" = Some v -> v <> "" ->
  exists link,
    urljoin base_url v = Some link /\ link ∈ images /\ link ∈ videos.
Proof.
  intros Himages Hvideos Ht Hname Hv Hne.
  assert (Hjoin : is_Some (urljoin base_url v)).
  { assert (Hsome : is_Some (extract_media_links urljoin page base_url Videos))
      by (by rewrite Hvideos).
    rewrite extract_sources_unfold, join_all_total in Hsome. apply Hsome.
    apply elem_of_source_candidates. exists t. rewrite Hname.
    split_and!; [done| |done|done]. right; right; left. }
  destruct Hjoin as [link Hjoin]. exists link. split_and!; [done| |].
  - apply (elem_of_extract_images _ _ _ _ Himages). exists t, "src", v.
    rewrite Hname. split_and!; try done; [right; left | left].
  - apply (elem_of_extract_sources _ _ _ _ Hvideos). exists t, v.
    rewrite Hname. split_and!; try done. right; right; left.
Qed.

Lemma links_loop_total base_url sd (tags : list tag) :
  forall acc,
    is_Some (foldl (fun acc t =>
               links ← acc; add_link urljoin netloc base_url sd links t)
               (Some acc) tags) <->
    forall t href,
      t ∈ tags -> tag_attrs t !! "href" = Some href ->
      is_Some (urljoin base_url href).
Proof.
  induction tags as [|t tags IH]; intros acc; cbn [foldl mbind option_bind].
  - split; [|done]. intros _ t href Ht. by apply elem_of_nil in Ht.
  - unfold add_link at 2.
    destruct (tag_attrs t !! "href") as [href|] eqn:Hhref.
    + destruct (urljoin base_url href) as [full_url|] eqn:Hjoin;
        cbn [mbind option_bind].
      * assert (Hnext : forall acc',
          is_Some (foldl (fun acc t =>
                     links ← acc; add_link urljoin netloc base_url sd links t)
                     (Some acc') tags) <->
          forall t' href', t' ∈ t :: tags -> tag_attrs t' !! "href" = Some href' ->
            is_Some (urljoin base_url href')).
        { intros acc'. rewrite IH. split.
          - intros Hall t' href' Ht' Hhref'.
            apply elem_of_cons in Ht' as [-> | Ht']; [|by eapply Hall].
            rewrite Hhref in Hhref'. injection Hhref' as <-. by rewrite Hjoin.
          - intros Hall t' href' Ht'. apply Hall. by right. }
        destruct (sd && _)%bool; apply Hnext.
      * rewrite foldl_raised. split; [by intros [? ?]|].
        intros Hall. destruct (Hall t href) as [full_url Hsome]; [by left|done|].
        congruence.
    + rewrite IH. split.
      * intros Hall t' href' Ht' Hhref'.
        apply elem_of_cons in Ht' as [-> | Ht']; [congruence | by eapply Hall].
      * intros Hall t' href' Ht'. apply Hall. by right.
Qed.

(** X4. [extract_links] returns exactly the joins with the base URL of the
    [href] values of the [a] tags of the page, empty values included; with
    [same_domain] it keeps of them those whose [netloc] is the one of the
    base URL, and without it all of them.  It raises exactly when [urljoin]
    rejects the [href] of one [a] tag, kept or not. *)
Theorem links_from_a_tags page base_url same_domain :
  (is_Some (extract_links urljoin netloc page base_url same_domain) <->
   forall t href,
     t ∈ page -> tag_name t = "a" -> tag_attrs t !! "href" = Some href ->
     is_Some (urljoin base_url href)) /\
  (forall links,
     extract_links urljoin netloc page base_url same_domain = Some links ->
     forall link,
       link ∈ links <->
       exists t href,
         t ∈ page /\ tag_name t = "a" /\ tag_attrs t !! "href" = Some href /\
         urljoin base_url href = Some link /\
         (same_domain = true -> netloc link = netloc base_url)).
Proof.
  split.
  - unfold extract_links. rewrite links_loop_total. unfold find_all_a_href. split.
    + intros Hall t href Ht Hname Hhref. apply (Hall t href); [|done].
      apply list_elem_of_filter. split; [|done]. split; [done|]. by rewrite Hhref.
    + intros Hall t href Ht Hhref.
      apply list_elem_of_filter in Ht as [[Hname _] Ht]. by eapply Hall.
  - intros links Hrun link. by apply elem_of_extract_links.
Qed.

End ExtractorFacts.

Lemma source_tag_is_image_and_video_witness :
  exists images videos,
    extract_media_links SimpleUrl.urljoin clip_page Example.seed Images = Some images /\
    extract_media_links SimpleUrl.urljoin clip_page Example.seed Videos = Some videos /\
    exists link,
      SimpleUrl.urljoin Example.seed "http://h.org/clip.mp4" = Some link /\
      link ∈ images /\ link ∈ videos.
Proof.
  destruct (extract_media_links SimpleUrl.urljoin clip_page Example.seed Images)
    as [images|] eqn:Himages; [|by vm_compute in Himages].
  destruct (extract_media_links SimpleUrl.urljoin clip_page Example.seed Videos)
    as [videos|] eqn:Hvideos; [|by vm_compute in Hvideos].
  exists images, videos. split; [reflexivity|]. split; [reflexivity|].
  apply (source_tag_is_image_and_video SimpleUrl.urljoin clip_page Example.seed
           images videos (Tag "source" {[ "src" := "http://h.org/clip.mp4" ]})
           "http://h.org/clip.mp4" Himages Hvideos).
  - by left.
  - reflexivity.
  - by vm_compute.
  - discriminate.
Defined.

(** ** [is_media_file] *)

Lemma lower_ascii_not_upper c : is_ascii_upper (PyStr.lower_ascii c) = false.
Proof. by destruct c as [[] [] [] [] [] [] [] []]. Qed.

Lemma contains_lower c s :
  is_ascii_upper c = true -> PyStr.contains c (PyStr.lower s) = false.
Proof.
  intros Hupper. induction s as [|d s IH]; [done|].
  cbn [PyStr.lower PyStr.contains]. rewrite IH, orb_false_r.
  destruct (Ascii.eqb_spec c (PyStr.lower_ascii d)) as [-> | Hne]; [|done].
  by rewrite lower_ascii_not_upper in Hupper.
Qed.

Lemma contains_app c s1 s2 :
  PyStr.contains c (s1 +:+ s2) = (PyStr.contains c s1 || PyStr.contains c s2)%bool.
Proof.
  induction s1 as [|d s1 IH]; [done|].
  change (String d s1 +:+ s2) with (String d (s1 +:+ s2)).
  cbn [PyStr.contains]. rewrite IH. by rewrite orb_assoc.
Qed.

(** X5. [is_media_file] reads the URL through its lowercased form only, so
    two URLs that differ by case get the same answer; it does not lowercase
    the extensions, so an extension with an uppercase ASCII letter matches
    no URL. *)
Theorem is_media_file_folds_url_case_only url extensions :
  (forall url',
     PyStr.lower url' = PyStr.lower url ->
     is_media_file url' extensions = is_media_file url extensions) /\
  (forall ext c,
     is_ascii_upper c = true -> PyStr.contains c ext = true ->
     is_media_file url [ext] = false).
Proof.
  split.
  - intros url' Hsame. unfold is_media_file. by rewrite Hsame.
  - intros ext c Hupper Hin.
    destruct (is_media_file url [ext]) eqn:Hmatch; [|done].
    apply is_media_file_spec in Hmatch as (pre & ext' & Hext & Hlower).
    apply list_elem_of_singleton in Hext as ->.
    pose proof (contains_lower c url Hupper) as Hnone.
    rewrite Hlower, contains_app, Hin, orb_true_r in Hnone. done.
Qed.

Lemma is_media_file_folds_url_case_only_witness :
  is_ascii_upper "P" = true /\ PyStr.contains "P" ".PDF" = true /\
  is_media_file "report.PDF" [".PDF"] = false /\
  is_media_file "REPORT.PDF" [".pdf"] = is_media_file "report.pdf" [".pdf"].
Proof.
  split; [reflexivity|]. split; [reflexivity|]. split.
  - apply (proj2 (is_media_file_folds_url_case_only "report.PDF" [".PDF"])
             ".PDF" "P"%char); reflexivity.
  - apply (proj1 (is_media_file_folds_url_case_only "report.pdf" [".pdf"])
             "REPORT.PDF"). reflexivity.
Defined.

(** ** More on the traversal *)

Section CrawlMore.

Variable urljoin : string -> string -> option string.
Variable netloc : string -> string.
Variable get_page_content : string -> option soup.
Variable media_types : list media_type.
Variable max_depth max_pages : Z.
Variable same_domain : bool.

(** The program's functions at the parameters of this section. *)
Local Abbreviation run_crawl :=
  (crawl urljoin netloc get_page_content media_types max_depth max_pages same_domain).
Local Abbreviation run_crawl_from :=
  (crawl_from urljoin netloc get_page_content media_types max_depth max_pages same_domain).
Local Abbreviation guard := (crawl_guard max_depth max_pages).
Local Abbreviation queue_media := (enqueue_media urljoin media_types).
Local Abbreviation extracted :=
  (item_extracted urljoin get_page_content media_types).

(** The inner loop of the media loop: one [put] per link. *)
Lemma put_all url mtype (links : list string) st :
  let st' := foldl (fun st link => put (QueueItem link mtype url) st) st links in
  visited_urls st' = visited_urls st /\
  fetch_log st' = fetch_log st /\
  download_queue st' =
    download_queue st ++ map (fun link => QueueItem link mtype url) links.
Proof.
  revert st. induction links as [|link links IH]; intros st; cbn [foldl map].
  - by rewrite app_nil_r.
  - destruct (IH (put (QueueItem link mtype url) st)) as (Hv & Hl & Hq).
    cbn zeta in *. rewrite Hv, Hl, Hq. simpl. by rewrite <- app_assoc.
Qed.

Lemma enqueue_raised page url (mtypes : list media_type) st :
  foldl (enqueue_type urljoin page url) (st, false) mtypes = (st, false).
Proof. by induction mtypes. Qed.

(** What the media loop does to the state: it appends to the queue items of
    this page, of the types of the loop, each with a URL the extractor
    returned, and no item twice when no type is listed twice. *)
Lemma enqueue_loop_spec page url (mtypes : list media_type) :
  forall st ok,
    visited_urls (foldl (enqueue_type urljoin page url) (st, ok) mtypes).1
      = visited_urls st /\
    fetch_log (foldl (enqueue_type urljoin page url) (st, ok) mtypes).1
      = fetch_log st /\
    exists new,
      download_queue (foldl (enqueue_type urljoin page url) (st, ok) mtypes).1
        = download_queue st ++ new /\
      Forall (fun item =>
                item_source item = url /\ item_type item ∈ mtypes /\
                exists links,
                  extract_media_links urljoin page url (item_type item) = Some links /\
                  item_url item ∈ links) new /\
      (NoDup mtypes -> NoDup new).
Proof.
  assert (Hstop : forall (mtypes : list media_type) st,
    visited_urls (foldl (enqueue_type urljoin page url) (st, false) mtypes).1
      = visited_urls st /\
    fetch_log (foldl (enqueue_type urljoin page url) (st, false) mtypes).1
      = fetch_log st /\
    exists new,
      download_queue (foldl (enqueue_type urljoin page url) (st, false) mtypes).1
        = download_queue st ++ new /\
      Forall (fun item =>
                item_source item = url /\ item_type item ∈ mtypes /\
                exists links,
                  extract_media_links urljoin page url (item_type item) = Some links /\
                  item_url item ∈ links) new /\
      (NoDup mtypes -> NoDup new)).
  { intros mtypes0 st. rewrite enqueue_raised. cbn [fst].
    split_and!; [done..|]. exists []. rewrite app_nil_r.
    split_and!; [done|by apply Forall_nil|]. intros _. apply NoDup_nil_2. }
  induction mtypes as [|mtype mtypes IH]; intros st ok.
  - destruct ok; [|apply Hstop]. cbn [foldl fst].
    split_and!; [done..|]. exists []. rewrite app_nil_r.
    split_and!; [done|by apply Forall_nil|]. intros _. apply NoDup_nil_2.
  - destruct ok; [|apply Hstop]. cbn [foldl]. unfold enqueue_type at 2 4 6.
    destruct (extract_media_links urljoin page url mtype) as [links|] eqn:Hlinks.
    2:{ destruct (Hstop mtypes st) as (Hv & Hl & new & Hq & Hnew & Hnodup).
        split_and!; [done..|]. exists new. split_and!; [done| |].
        - eapply Forall_impl; [exact Hnew|]. intros item (Hs & Ht & Hrest).
          split_and!; [done|by right|done].
        - intros Hmtypes. apply NoDup_cons in Hmtypes as [_ Hmtypes]. by apply Hnodup. }
    destruct (put_all url mtype (elements links) st) as (Hv1 & Hl1 & Hq1).
    cbn zeta in Hv1, Hl1, Hq1.
    destruct (IH (foldl (fun st link => put (QueueItem link mtype url) st)
                        st (elements links)) true)
      as (Hv & Hl & new & Hq & Hnew & Hnodup).
    split_and!; [congruence..|].
    exists (map (fun link => QueueItem link mtype url) (elements links) ++ new).
    split_and!.
    + by rewrite Hq, Hq1, <- app_assoc.
    + apply Forall_app. split.
      * apply Forall_forall. intros item Hitem.
        apply list_elem_of_fmap in Hitem as (link & -> & Hlink). simpl.
        split_and!; [done|by left|]. exists links. split; [done|].
        by apply elem_of_elements.
      * eapply Forall_impl; [exact Hnew|]. intros item (Hs & Ht & Hrest).
        split_and!; [done|by right|done].
    + intros Hmtypes. apply NoDup_cons in Hmtypes as [Hfresh Hmtypes].
      apply NoDup_app. split_and!.
      * apply NoDup_fmap_2; [|apply NoDup_elements].
        intros l1 l2 Heq. by injection Heq.
      * intros item Hitem Hitem'.
        apply list_elem_of_fmap in Hitem as (link & -> & _).
        rewrite Forall_forall in Hnew.
        destruct (Hnew _ Hitem') as (_ & Htype & _). simpl in Htype. done.
      * by apply Hnodup.
Qed.

(** The proof rule of [crawl] that looks at the media loop: [I] is shown
    for the state a fetched page leaves, queue included. *)
Lemma crawl_rule_pages (Q : string -> Z -> Prop) (I : crawl_state -> Prop) :
  (forall url d st,
     Q url d -> I st -> guard url d st = false ->
     get_page_content url = None -> I (fetch_failed url d st)) ->
  (forall url d st page,
     Q url d -> I st -> guard url d st = false ->
     get_page_content url = Some page ->
     I (queue_media page url (fetch_succeeded url d st)).1) ->
  (forall url d page links link,
     Q url d -> d <= max_depth -> get_page_content url = Some page ->
     extract_links urljoin netloc page url same_domain = Some links ->
     link ∈ links -> Q link (d + 1)) ->
  forall fuel url d st st',
    Q url d -> I st -> run_crawl fuel url d st = Some st' -> I st'.
Proof.
  intros Hfail Hpage Hchild.
  induction fuel as [|fuel IH]; intros url d st st' HQ HI Hrun; [done|].
  simpl in Hrun.
  destruct (guard url d st) eqn:Hguard; [by simplify_eq|].
  destruct (get_page_content url) as [page|] eqn:Hget;
    [|simplify_eq; by apply Hfail].
  pose proof (crawl_guard_false _ _ _ _ _ Hguard) as (_ & Hdepth & _).
  pose proof (Hpage url d st page HQ HI Hguard Hget) as Hstart.
  destruct (queue_media page url (fetch_succeeded url d st))
    as [st0 [|]]; simpl in Hstart; [|by simplify_eq].
  destruct (extract_links urljoin netloc page url same_domain) as [links|] eqn:Hlinks;
    [|by simplify_eq].
  assert (Hall : forall link, link ∈ elements links -> Q link (d + 1)).
  { intros link Hin. apply elem_of_elements in Hin. by eapply Hchild. }
  revert Hall Hstart Hrun. generalize (elements links). clear Hlinks.
  intros l. revert st0.
  induction l as [|link l IHl]; intros st0 Hall Hst0 Hrun.
  - simpl in Hrun. by simplify_eq.
  - simpl in Hrun.
    destruct (run_crawl fuel link (d + 1) st0) as [st1|] eqn:Hcall.
    + apply (IHl st1); [|by eapply IH; [apply Hall; left|..]|done].
      intros l0 Hl0. apply Hall. by right.
    + by rewrite crawl_children_None in Hrun.
Qed.

Lemma extends_refl st : extends st st.
Proof. by split_and!. Qed.

Lemma extends_trans st1 st2 st3 : extends st1 st2 -> extends st2 st3 -> extends st1 st3.
Proof.
  intros (Hv & Hq & Hl) (Hv' & Hq' & Hl'). split_and!; by etrans.
Qed.

Lemma queue_media_extends page url st : extends st (queue_media page url st).1.
Proof.
  destruct (enqueue_loop_spec page url media_types st true)
    as (Hv & Hl & new & Hq & _).
  unfold enqueue_media. split_and!.
  - by rewrite Hv.
  - rewrite Hq. by apply prefix_app_r.
  - by rewrite Hl.
Qed.

Lemma fetch_succeeded_extends url d st : extends st (fetch_succeeded url d st).
Proof.
  split_and!; simpl; [apply union_subseteq_r|done|by apply prefix_app_r].
Qed.

Lemma fetch_failed_extends url d st : extends st (fetch_failed url d st).
Proof. split_and!; simpl; [done|done|by apply prefix_app_r]. Qed.

Lemma crawl_extends fuel url d st st' :
  run_crawl fuel url d st = Some st' -> extends st st'.
Proof.
  apply (crawl_rule_pages (fun _ _ => True) (extends st)); try done.
  - intros url0 d0 st0 _ Hst0 _ _.
    eapply extends_trans; [exact Hst0 | apply fetch_failed_extends].
  - intros url0 d0 st0 page _ Hst0 _ _.
    eapply extends_trans; [exact Hst0|].
    eapply extends_trans; [apply fetch_succeeded_extends | apply queue_media_extends].
Qed.

Lemma crawl_children_extend fuel d (links : list string) :
  forall st st',
    foldl (fun acc link =>
             match acc with
             | Some st => run_crawl fuel link d st
             | None => None
             end) (Some st) links = Some st' ->
    extends st st'.
Proof.
  induction links as [|link links IH]; intros st st' Hrun; simpl in Hrun.
  - simplify_eq. apply extends_refl.
  - destruct (run_crawl fuel link d st) as [st1|] eqn:Hcall.
    + eapply extends_trans; [by eapply crawl_extends | by apply IH].
    + by rewrite crawl_children_None in Hrun.
Qed.

(** X6. A call of [crawl] only adds: whatever the state it starts from,
    the URLs visited before are still visited after it, and the queue and
    the log of fetches after it begin with what they held before. *)
Theorem crawl_only_adds fuel url d st st' :
  crawl urljoin netloc get_page_content media_types max_depth max_pages same_domain
    fuel url d st = Some st' ->
  visited_urls st ⊆ visited_urls st' /\
  download_queue st `prefix_of` download_queue st' /\
  fetch_log st `prefix_of` fetch_log st'.
Proof. apply crawl_extends. Qed.

Lemma extracted_mono visited visited' item :
  visited ⊆ visited' -> extracted visited item -> extracted visited' item.
Proof.
  intros Hsub (Htype & Hsource & Hrest). split_and!; [done| |done].
  by apply Hsub.
Qed.

(** X7. Every item the traversal queues has a type that was asked for, a
    source page that was fetched and is in [visited_urls], and a URL that
    [extract_media_links] returns for that page and that type. *)
Theorem queued_items_come_from_visited_pages seed :
  exists st,
    run_crawl_from seed = Some st /\
    forall item,
      item ∈ download_queue st ->
      item_type item ∈ media_types /\
      item_source item ∈ visited_urls st /\
      exists page links,
        get_page_content (item_source item) = Some page /\
        extract_media_links urljoin page (item_source item) (item_type item)
          = Some links /\
        item_url item ∈ links.
Proof.
  destruct (crawl_from_total urljoin netloc get_page_content media_types
              max_depth max_pages same_domain seed) as [st Hrun].
  exists st. split; [done|]. revert Hrun.
  apply (crawl_rule_pages (fun _ _ => True)
           (fun st => forall item,
              item ∈ download_queue st -> extracted (visited_urls st) item));
    try done.
  - intros url d st0 page _ Hst0 _ Hpage item Hitem.
    destruct (enqueue_loop_spec page url media_types (fetch_succeeded url d st0) true)
      as (Hv & _ & new & Hq & Hnew & _).
    unfold enqueue_media in *. rewrite Hv. rewrite Hq in Hitem. simpl in *.
    apply elem_of_app in Hitem as [Hold | Hitem].
    + eapply extracted_mono; [|by apply Hst0]. apply union_subseteq_r.
    + rewrite Forall_forall in Hnew.
      destruct (Hnew item Hitem) as (Hsource & Htype & links & Hlinks & Hlink).
      split_and!;
        [done|rewrite Hsource; apply elem_of_union_l; by apply elem_of_singleton|].
      exists page, links. by rewrite Hsource.
  - intros item Hitem. by apply elem_of_nil in Hitem.
Qed.

(** X8. When no media type is listed twice, the traversal queues no item
    twice: two entries of the queue differ in their URL, their type or
    their source page. *)
Theorem queue_has_no_duplicates seed :
  NoDup media_types ->
  exists st,
    run_crawl_from seed = Some st /\ NoDup (download_queue st).
Proof.
  intros Htypes.
  destruct (crawl_from_total urljoin netloc get_page_content media_types
              max_depth max_pages same_domain seed) as [st Hrun].
  exists st. split; [done|].
  enough (Hinv : NoDup (download_queue st) /\
                 forall item, item ∈ download_queue st ->
                   item_source item ∈ visited_urls st) by apply Hinv.
  revert Hrun.
  apply (crawl_rule_pages (fun _ _ => True)
           (fun st => NoDup (download_queue st) /\
                      forall item, item ∈ download_queue st ->
                        item_source item ∈ visited_urls st));
    try done.
  - intros url d st0 page _ [Hnodup Hsources] Hguard _.
    apply crawl_guard_false in Hguard as (Hfresh & _ & _).
    destruct (enqueue_loop_spec page url media_types (fetch_succeeded url d st0) true)
      as (Hv & _ & new & Hq & Hnew & Hnew_nodup).
    unfold enqueue_media in *. rewrite Hv, Hq. simpl in *.
    rewrite Forall_forall in Hnew. split.
    + apply NoDup_app. split_and!; [done| |by apply Hnew_nodup].
      intros item Hold Hitem. destruct (Hnew item Hitem) as (Hsource & _).
      apply Hfresh. rewrite <- Hsource. by apply Hsources.
    + intros item Hitem. apply elem_of_app in Hitem as [Hold | Hitem].
      * apply elem_of_union_r. by apply Hsources.
      * destruct (Hnew item Hitem) as (-> & _).
        apply elem_of_union_l. by apply elem_of_singleton.
  - split; [apply NoDup_nil_2|]. intros item Hitem. by apply elem_of_nil in Hitem.
Qed.

(** X9. [visited_urls] counts the fetches that succeeded: its size is the
    number of successful fetches of the traversal, failed fetches not
    counted. *)
Theorem visited_counts_successful_fetches seed :
  exists st,
    run_crawl_from seed = Some st /\
    size (visited_urls st)
      = length (filter (fun e => ev_ok e = true) (fetch_log st)).
Proof.
  destruct (crawl_from_total urljoin netloc get_page_content media_types
              max_depth max_pages same_domain seed) as [st Hrun].
  exists st. split; [done|]. revert Hrun.
  apply (crawl_rule_pages (fun _ _ => True)
           (fun st => size (visited_urls st)
                      = length (filter (fun e => ev_ok e = true) (fetch_log st))));
    try done.
  - intros url d st0 _ Hst0 _ _. simpl.
    rewrite filter_app, length_app, Hst0. simpl. lia.
  - intros url d st0 page _ Hst0 Hguard _.
    apply crawl_guard_false in Hguard as (Hfresh & _ & _).
    destruct (enqueue_loop_spec page url media_types (fetch_succeeded url d st0) true)
      as (Hv & Hl & _).
    unfold enqueue_media in *. rewrite Hv, Hl. simpl.
    rewrite size_union by (by apply disjoint_singleton_l).
    rewrite size_singleton, filter_app, length_app, Hst0. simpl. lia.
Qed.

(** X10. The first fetch is the seed's, at depth 0.  With [max_depth]
    negative or [max_pages] not positive the traversal does nothing at
    all; otherwise it fetches the seed first, and when that fetch fails
    it stops there with nothing visited and nothing queued. *)
Theorem seed_is_fetched_first seed :
  exists st,
    run_crawl_from seed = Some st /\
    (max_depth < 0 \/ max_pages <= 0 -> st = initial_state) /\
    (0 <= max_depth -> 0 < max_pages ->
     exists e,
       head (fetch_log st) = Some e /\ ev_url e = seed /\ ev_depth e = 0 /\
       (ev_ok e = true <-> is_Some (get_page_content seed))) /\
    (0 <= max_depth -> 0 < max_pages -> get_page_content seed = None ->
     st = fetch_failed seed 0 initial_state).
Proof.
  destruct (crawl_from_total urljoin netloc get_page_content media_types
              max_depth max_pages same_domain seed) as [st Hrun].
  exists st. split; [done|].
  unfold crawl_from, crawl_fuel in Hrun. cbn [crawl] in Hrun.
  assert (Hopen : 0 <= max_depth -> 0 < max_pages ->
                  guard seed 0 initial_state = false).
  { intros Hd Hp. unfold crawl_guard, initial_state; cbn [visited_urls].
    rewrite size_empty.
    rewrite bool_decide_eq_false_2 by apply not_elem_of_empty.
    change (Z.of_nat 0) with 0.
    apply Z.ltb_ge in Hd. rewrite Hd. simpl. by apply Z.leb_gt. }
  split_and!.
  - intros Hclosed.
    assert (Hguard : guard seed 0 initial_state = true).
    { unfold crawl_guard, initial_state; cbn [visited_urls]. rewrite size_empty.
      destruct Hclosed as [Hd | Hp].
      - apply Z.ltb_lt in Hd. rewrite Hd. by rewrite orb_true_r.
      - change (Z.of_nat 0) with 0. apply Z.leb_le in Hp. rewrite Hp.
        by rewrite orb_true_r. }
    rewrite Hguard in Hrun. by simplify_eq.
  - intros Hd Hp. rewrite (Hopen Hd Hp) in Hrun.
    destruct (get_page_content seed) as [page|] eqn:Hpage.
    + exists (FetchEvent seed 0 true ({[seed]} ∪ ∅)).
      split_and!; [|done|done|by split].
      pose proof (enqueue_loop_spec page seed media_types
                    (fetch_succeeded seed 0 initial_state) true) as (_ & Hl & _).
      fold (queue_media page seed (fetch_succeeded seed 0 initial_state)) in Hl.
      assert (Hlog : extends (queue_media page seed
                                (fetch_succeeded seed 0 initial_state)).1 st).
      { destruct (queue_media page seed (fetch_succeeded seed 0 initial_state))
          as [st0 [|]]; [|simplify_eq; apply extends_refl].
        destruct (extract_links urljoin netloc page seed same_domain) as [links|];
          [|simplify_eq; apply extends_refl].
        by eapply crawl_children_extend. }
      destruct Hlog as (_ & _ & [rest Hrest]).
      rewrite Hl in Hrest. simpl in Hrest. by rewrite Hrest.
    + simplify_eq. exists (FetchEvent seed 0 false ∅).
      split_and!; [done..|]. split; [done|]. by intros [? ?].
  - intros Hd Hp Hnone. rewrite (Hopen Hd Hp), Hnone in Hrun. by simplify_eq.
Qed.

End CrawlMore.

Lemma crawl_only_adds_witness :
  exists st',
    crawl SimpleUrl.urljoin SimpleUrl.netloc Example.web [Images] 2 10 true
      4 Example.seed 0 (fetch_succeeded "http://h.org/c" 1 initial_state) = Some st' /\
    "http://h.org/c" ∈ visited_urls st'.
Proof.
  destruct (crawl_total SimpleUrl.urljoin SimpleUrl.netloc Example.web [Images]
              2 10 true 4 Example.seed 0
              (fetch_succeeded "http://h.org/c" 1 initial_state)) as [st' Hrun];
    [simpl; lia|].
  exists st'. split; [exact Hrun|].
  destruct (crawl_only_adds SimpleUrl.urljoin SimpleUrl.netloc Example.web [Images]
              2 10 true _ _ _ _ _ Hrun) as (Hvisited & _).
  apply Hvisited. simpl. apply elem_of_union_l. by apply elem_of_singleton.
Defined.

Lemma queue_has_no_duplicates_witness :
  NoDup [Images] /\
  exists st, Example.crawl_web 2 10 true = Some st /\ NoDup (download_queue st).
Proof.
  assert (Htypes : NoDup [Images]) by apply NoDup_singleton.
  split; [exact Htypes|].
  exact (queue_has_no_duplicates SimpleUrl.urljoin SimpleUrl.netloc Example.web
           [Images] 2 10 true Example.seed Htypes).
Defined.

(** The example web has the image [i.png] on two pages: it is queued once
    for each. *)
Example same_image_queued_per_page :
  (fun st => map (fun item => (item_url item, item_source item)) (download_queue st))
    <$> Example.crawl_web 2 10 true
  = Some [("http://h.org/i.png", "http://h.org/");
          ("http://h.org/i.png", "http://h.org/c");
          ("http://h.org/j.png", "http://h.org/c")].
Proof. vm_compute. reflexivity. Qed.

(** ** The file name of a download *)

Lemma from_cons i d s : PyStr.from (S i) (String d s) = PyStr.from i s.
Proof. done. Qed.

Lemma from_zero s : PyStr.from 0 s = s.
Proof. unfold PyStr.from. rewrite Nat.sub_0_r. apply substring_all. Qed.

Lemma from_nil i : PyStr.from i "" = "".
Proof. by destruct i. Qed.

Lemma contains_from c s :
  PyStr.contains c s = false -> forall i, PyStr.contains c (PyStr.from i s) = false.
Proof.
  induction s as [|d s IH]; intros Hnone i; [by rewrite from_nil|].
  destruct i as [|i]; [by rewrite from_zero|].
  rewrite from_cons. apply IH. simpl in Hnone.
  by apply orb_false_elim in Hnone as [_ ?].
Qed.

Lemma rfind_None c s : PyStr.rfind c s = None -> PyStr.contains c s = false.
Proof.
  induction s as [|d s IH]; [done|]. simpl.
  destruct (PyStr.rfind c s); [done|].
  destruct (Ascii.eqb c d); [done|]. intros _. by rewrite IH.
Qed.

(** Nothing after the last occurrence. *)
Lemma contains_after_rfind c s :
  forall i j,
    PyStr.rfind c s = Some i -> (i < j)%nat ->
    PyStr.contains c (PyStr.from j s) = false.
Proof.
  induction s as [|d s IH]; intros i j Hlast Hlt; [done|].
  destruct j as [|j]; [lia|]. rewrite from_cons. simpl in Hlast.
  destruct (PyStr.rfind c s) as [k|] eqn:Hrest.
  - injection Hlast as <-. apply (IH k); [done|lia].
  - apply contains_from. by apply rfind_None.
Qed.

(** The last occurrence is an occurrence. *)
Lemma from_rfind c s :
  forall i, PyStr.rfind c s = Some i -> exists rest, PyStr.from i s = String c rest.
Proof.
  induction s as [|d s IH]; intros i Hlast; [done|]. simpl in Hlast.
  destruct (PyStr.rfind c s) as [k|] eqn:Hrest.
  - injection Hlast as <-. rewrite from_cons. by apply IH.
  - destruct (Ascii.eqb_spec c d) as [-> | Hne]; [|done].
    injection Hlast as <-. rewrite from_zero. by eexists.
Qed.

Lemma basename_no_slash p : PyStr.contains "/" (OsPath.basename p) = false.
Proof.
  unfold OsPath.basename. destruct (PyStr.rfind "/" p) as [i|] eqn:Hlast.
  - apply (contains_after_rfind _ _ i); [done|lia].
  - by apply rfind_None.
Qed.

Lemma splitext_no_slash p : PyStr.contains "/" (OsPath.splitext_ext p) = false.
Proof.
  unfold OsPath.splitext_ext.
  destruct (PyStr.rfind "." p) as [dotIndex|]; [|done].
  destruct (PyStr.rfind "/" p) as [sepIndex|] eqn:Hsep.
  - destruct (S sepIndex <=? dotIndex)%nat eqn:Hle; [|done].
    destruct (OsPath.has_non_dot _ _ _); [|done]. simpl.
    apply Nat.leb_le in Hle. apply (contains_after_rfind _ _ sepIndex); [done|lia].
  - destruct (_ && _)%bool; [|done]. apply contains_from. by apply rfind_None.
Qed.

Lemma splitext_starts_with_dot p :
  OsPath.splitext_ext p = "" \/ exists rest, OsPath.splitext_ext p = String "." rest.
Proof.
  unfold OsPath.splitext_ext.
  destruct (PyStr.rfind "." p) as [dotIndex|] eqn:Hdot; [|by left].
  destruct (_ && _)%bool; [|by left]. right. by apply from_rfind.
Qed.

Lemma pretty_N_go_contains c x s :
  (forall d, pretty_N_char d <> c) ->
  PyStr.contains c (pretty_N_go x s) = PyStr.contains c s.
Proof.
  intros Hdigit. revert s. induction (N.lt_wf_0 x) as [x _ IH]; intros s.
  destruct (decide (0 < x)%N) as [Hpos | Hzero].
  - rewrite pretty_N_go_step by done. rewrite IH by (by apply N.div_lt).
    simpl. destruct (Ascii.eqb_spec c (pretty_N_char (x `mod` 10))) as [-> | _];
      [by destruct (Hdigit (x `mod` 10)%N) | done].
  - assert (x = 0%N) as -> by lia. by rewrite pretty_N_go_0.
Qed.

Lemma pretty_N_no_slash (x : N) : PyStr.contains "/" (pretty x) = false.
Proof.
  unfold pretty, pretty_N. case_decide; [done|].
  rewrite pretty_N_go_contains; [done|].
  intros d. unfold pretty_N_char. by repeat case_match.
Qed.

Lemma pretty_Z_no_slash (x : Z) : PyStr.contains "/" (pretty x) = false.
Proof.
  destruct x as [|x|x]; [done| |].
  - apply (pretty_N_no_slash (Npos x)).
  - change (pretty (Zneg x)) with ("-" +:+ pretty (Npos x)).
    rewrite contains_app. simpl. apply pretty_N_no_slash.
Qed.

(** X11. The name a download is saved under is never empty, always has a
    dot, and never has a slash: a worker writes a file directly in the
    folder of its type. *)
Theorem filename_is_a_plain_name url_path url randint :
  choose_filename url_path url randint <> "" /\
  PyStr.contains "." (choose_filename url_path url randint) = true /\
  PyStr.contains "/" (choose_filename url_path url randint) = false.
Proof.
  unfold choose_filename.
  destruct (negb (PyStr.truthy (OsPath.basename (url_path url)))
            || negb (PyStr.contains "." (OsPath.basename (url_path url))))%bool
    eqn:Hmake.
  - split_and!.
    + done.
    + rewrite !contains_app. apply orb_true_iff; right. apply orb_true_iff; right.
      destruct (splitext_starts_with_dot url) as [-> | [rest ->]]; [done|].
      simpl. done.
    + rewrite !contains_app, pretty_Z_no_slash. simpl.
      destruct (PyStr.truthy (OsPath.splitext_ext url)); [|done].
      apply splitext_no_slash.
  - apply orb_false_elim in Hmake as [Htruthy Hdot].
    apply negb_false_iff in Htruthy, Hdot. split_and!.
    + intros Hempty. rewrite Hempty in Htruthy. done.
    + done.
    + apply basename_no_slash.
Qed.

(** ** More on the download workers *)

Section PoolMore.

Variable url_path : string -> string.
Variable min_size_kb : Z.
Variable max_media_per_type : gmap media_type Z.

(** The program's functions at the parameters of this section. *)
Local Abbreviation iteration := (process_item url_path min_size_kb max_media_per_type).
Local Abbreviation step := (pool_step url_path min_size_kb max_media_per_type).
Local Abbreviation quota_hit := (quota_reached max_media_per_type).
Local Abbreviation alone := (download_worker url_path min_size_kb max_media_per_type).

(** The three ways an iteration ends: nothing changed; a truncated file
    left behind and nothing else; the item saved. *)
Lemma process_item_outcomes env item count ledger fs :
  iteration env item count ledger fs = (count, ledger, fs) \/
  (exists data,
     iteration env item count ledger fs =
       (count, ledger,
        <[ [media_type_name (item_type item);
            choose_filename url_path (item_url item) (env_randint env)]
           := FileBytes data ]> fs)) \/
  (exists r size_kb,
     quota_hit count (item_type item) = false /\
     env_response env = Some r /\ declared_size_kb r = Some size_kb /\
     (inject_Z min_size_kb <= size_kb)%Q /\
     iteration env item count ledger fs =
       (<[item_type item := get0 count (item_type item) + 1]> count,
        ledger ++ [saved_record url_path env item size_kb],
        <[ record_path (saved_record url_path env item size_kb)
           := FileBytes (content r) ]> fs)).
Proof.
  unfold process_item.
  destruct (quota_hit count (item_type item)) eqn:Hquota; [by left|].
  destruct (env_response env) as [r|] eqn:Hresp; [|by left].
  destruct (declared_size_kb r) as [size_kb|] eqn:Hsize; [|by left].
  destruct (Qlt_le_dec size_kb (inject_Z min_size_kb)) as [Hlt | Hle];
    [by left|].
  destruct (env_write env) as [|[data|]] eqn:Hwrite; [|right; left; by eexists|by left].
  right; right. by exists r, size_kb.
Qed.

(** X12. An iteration never removes: the ledger after a step of the pool
    begins with the ledger before it, and every path that held a file
    still holds one. *)
Theorem pool_only_adds p p' :
  rtc (pool_step url_path min_size_kb max_media_per_type) p p' ->
  downloaded_media p `prefix_of` downloaded_media p' /\
  dom (files p) ⊆ dom (files p').
Proof.
  induction 1 as [p | p p1 p2 Hstep _ [IHl IHf]]; [done|].
  enough (Hone : downloaded_media p `prefix_of` downloaded_media p1 /\
                 dom (files p) ⊆ dom (files p1)).
  { destruct Hone. split; by etrans. }
  clear IHl IHf.
  destruct Hstep as [p i w _ _ _ | p i w _ _ _ | p i w item rest env _ _ _ _];
    [done..|].
  unfold run_item.
  destruct (process_item_outcomes env item (media_count w) (downloaded_media p) (files p))
    as [-> | [[data ->] | (r & n & _ & _ & _ & _ & ->)]]; simpl.
  - done.
  - split; [done|]. rewrite dom_insert_L. apply union_subseteq_r.
  - split; [by apply prefix_app_r|]. rewrite dom_insert_L. apply union_subseteq_r.
Qed.

Lemma records_have_files n q fs0 p :
  rtc step (start_pool n q fs0) p ->
  forall r,
    r ∈ downloaded_media p ->
    exists data, files p !! record_path r = Some (FileBytes data).
Proof.
  assert (Hstart : forall r, r ∈ downloaded_media (start_pool n q fs0) ->
            exists data, files (start_pool n q fs0) !! record_path r
                         = Some (FileBytes data)).
  { intros r Hr. by apply elem_of_nil in Hr. }
  revert Hstart. generalize (start_pool n q fs0). intros p0 Hstart Hsteps.
  induction Hsteps as [p0 | p0 p1 p2 Hstep _ IH]; [done|].
  apply IH. clear IH.
  destruct Hstep as [p0 i w _ _ _ | p0 i w _ _ _ | p0 i w item rest env _ _ _ _];
    [done..|].
  unfold run_item.
  destruct (process_item_outcomes env item (media_count w) (downloaded_media p0) (files p0))
    as [-> | [[data ->] | (r & len & _ & _ & _ & _ & ->)]]; simpl.
  - done.
  - intros r Hr. destruct (Hstart r Hr) as [old Hold].
    rewrite lookup_insert. case_decide; by eexists.
  - intros r' Hr'. rewrite lookup_insert. case_decide; [by eexists|].
    apply elem_of_app in Hr' as [Hr' | Hr']; [by apply Hstart|].
    apply list_elem_of_singleton in Hr'. by subst r'.
Qed.

(** X13. Every record has its file: in a pool started with an empty ledger,
    the path [type/filename] of each record of [downloaded_media] holds a
    file of bytes, whatever the interleaving, failed and truncated writes
    included. *)
Theorem every_record_has_its_file n q fs0 p :
  rtc step (start_pool n q fs0) p ->
  forall r,
    r ∈ downloaded_media p ->
    exists data, files p !! record_path r = Some (FileBytes data).
Proof. apply records_have_files. Qed.

(** X14. Saving replaces: of two items saved one after the other to the
    same path, both records stay in the ledger and the directory holds the
    body of the second only.  The sizes are the floats the code computes
    from the two headers, neither below [min_size_kb]. *)
Theorem same_name_overwrites env1 env2 item1 item2 r1 r2 s1 s2 count ledger fs :
  quota_hit count (item_type item1) = false ->
  quota_hit (<[item_type item1 := get0 count (item_type item1) + 1]> count)
    (item_type item2) = false ->
  env_response env1 = Some r1 -> env_response env2 = Some r2 ->
  declared_size_kb r1 = Some s1 -> declared_size_kb r2 = Some s2 ->
  (inject_Z min_size_kb <= s1)%Q -> (inject_Z min_size_kb <= s2)%Q ->
  env_write env1 = WriteCompletes -> env_write env2 = WriteCompletes ->
  record_path (saved_record url_path env1 item1 s1)
    = record_path (saved_record url_path env2 item2 s2) ->
  (alone [env1; env2] [item1; item2] count ledger fs).1.2
    = ledger ++ [saved_record url_path env1 item1 s1;
                 saved_record url_path env2 item2 s2] /\
  (alone [env1; env2] [item1; item2] count ledger fs).2
    = <[ record_path (saved_record url_path env2 item2 s2)
         := FileBytes (content r2) ]> fs.
Proof.
  intros Hq1 Hq2 Hr1 Hr2 Hs1 Hs2 Hmin1 Hmin2 Hw1 Hw2 Hpath.
  cbn [download_worker].
  rewrite (process_item_sized _ _ _ env1 item1 r1 s1) by done.
  destruct (Qlt_le_dec s1 (inject_Z min_size_kb)) as [Hlt1 | _];
    [by apply Qlt_not_le in Hlt1|].
  rewrite (process_item_sized _ _ _ env2 item2 r2 s2) by done.
  destruct (Qlt_le_dec s2 (inject_Z min_size_kb)) as [Hlt2 | _];
    [by apply Qlt_not_le in Hlt2|].
  cbn [fst snd].
  split; [by rewrite <- app_assoc|].
  change [media_type_name (item_type item1);
          choose_filename url_path (item_url item1) (env_randint env1)]
    with (record_path (saved_record url_path env1 item1 s1)).
  change [media_type_name (item_type item2);
          choose_filename url_path (item_url item2) (env_randint env2)]
    with (record_path (saved_record url_path env2 item2 s2)).
  rewrite Hpath. apply insert_insert_eq.
Qed.

(** X15. Records come from the queue: in a pool started on the queue [q]
    with an empty ledger, every record has the URL, type and source page of
    an item of [q], and the records are never more than the items taken
    off the queue. *)
Theorem records_come_from_the_queue n q fs0 p :
  rtc step (start_pool n q fs0) p ->
  (forall r, r ∈ downloaded_media p -> exists item, item ∈ q /\ record_of_item r item) /\
  (length (downloaded_media p) + length (queue p) <= length q)%nat.
Proof.
  intros Hsteps.
  enough (Hinv : queue p `suffix_of` q /\
                 (forall r, r ∈ downloaded_media p ->
                    exists item, item ∈ q /\ record_of_item r item) /\
                 (length (downloaded_media p) + length (queue p) <= length q)%nat)
    by (destruct Hinv as (_ & ? & ?); done).
  assert (Hstart : queue (start_pool n q fs0) `suffix_of` q /\
            (forall r, r ∈ downloaded_media (start_pool n q fs0) ->
               exists item, item ∈ q /\ record_of_item r item) /\
            (length (downloaded_media (start_pool n q fs0))
             + length (queue (start_pool n q fs0)) <= length q)%nat).
  { simpl. split_and!; [done| |lia]. intros r Hr. by apply elem_of_nil in Hr. }
  revert Hstart Hsteps. generalize (start_pool n q fs0). intros p0 Hstart Hsteps.
  induction Hsteps as [p0 | p0 p1 p2 Hstep _ IH]; [done|].
  apply IH. clear IH. destruct Hstart as (Hsuffix & Hfrom & Hcount).
  destruct Hstep as [p0 i w _ _ _ | p0 i w _ _ _ | p0 i w item rest env _ _ Hq _];
    [done..|].
  rewrite Hq in Hsuffix, Hcount. simpl in Hcount.
  assert (Hitem : item ∈ q).
  { destruct Hsuffix as [before ->]. apply elem_of_app. right. by left. }
  assert (Hrest : rest `suffix_of` q) by (by eapply suffix_cons_l).
  unfold run_item.
  destruct (process_item_outcomes env item (media_count w) (downloaded_media p0) (files p0))
    as [-> | [[data ->] | (r & len & _ & _ & _ & _ & ->)]]; simpl.
  - split_and!; [done..|lia].
  - split_and!; [done..|lia].
  - split_and!; [done| |rewrite length_app; simpl; lia].
    intros r' Hr'. apply elem_of_app in Hr' as [Hr' | Hr']; [by apply Hfrom|].
    apply list_elem_of_singleton in Hr'. subst r'. by exists item.
Qed.

(** X16. For a positive limit, each thread keeps the limit by its own
    count: a pool of [n] threads never saves more than [n] times the limit
    of a type, and a pool of one thread keeps the limit itself. *)
Theorem quota_holds_per_thread m n q fs0 p :
  0 < get0 max_media_per_type m ->
  rtc step (start_pool n q fs0) p ->
  Z.of_nat (count_type m (downloaded_media p))
    <= Z.of_nat n * get0 max_media_per_type m.
Proof. apply quota_per_thread. Qed.

(** With a negative limit the check drops every item of the type. *)
Lemma quota_closed count m :
  get0 max_media_per_type m < 0 -> get0 count m = 0 -> quota_hit count m = true.
Proof.
  intros Hneg Hcount. unfold quota_reached. rewrite Hcount.
  apply andb_true_intro. split.
  - apply negb_true_iff, Z.eqb_neq. lia.
  - apply Z.leb_le. lia.
Qed.

(** X17. The limit 0, and a type without an entry, mean no limit: the
    quota check never drops an item of that type.  A negative limit means
    nothing: no item of that type is ever saved. *)
Theorem zero_is_unlimited_negative_is_none m :
  (max_media_per_type !! m = None \/ max_media_per_type !! m = Some 0 ->
   forall count, quota_hit count m = false) /\
  (get0 max_media_per_type m < 0 ->
   forall n q fs0 p,
     rtc step (start_pool n q fs0) p ->
     count_type m (downloaded_media p) = 0%nat).
Proof.
  split.
  - intros Hzero count. unfold quota_reached, get0 at 1.
    by destruct Hzero as [-> | ->].
  - intros Hneg n q fs0 p Hsteps.
    enough (Hinv : count_type m (downloaded_media p) = 0%nat /\
                   Forall (fun w => get0 (media_count w) m = 0) (workers p))
      by apply Hinv.
    assert (Hstart : count_type m (downloaded_media (start_pool n q fs0)) = 0%nat /\
              Forall (fun w => get0 (media_count w) m = 0)
                     (workers (start_pool n q fs0))).
    { split; [done|]. by apply Forall_replicate. }
    revert Hstart Hsteps. generalize (start_pool n q fs0). intros p0 Hstart Hsteps.
    induction Hsteps as [p0 | p0 p1 p2 Hstep _ IH]; [done|].
    apply IH. clear IH. destruct Hstart as [Hnone Hzero].
    destruct Hstep as [p0 i w Hw _ _ | p0 i w Hw _ _ | p0 i w item rest env Hw _ _ _].
    + split; [done|]. simpl. apply Forall_insert; [done|].
      exact (Forall_lookup_1 _ _ _ _ Hzero Hw).
    + split; [done|]. simpl. apply Forall_insert; [done|].
      exact (Forall_lookup_1 _ _ _ _ Hzero Hw).
    + pose proof (Forall_lookup_1 _ _ _ _ Hzero Hw) as Hcount. simpl in Hcount.
      unfold run_item.
      destruct (process_item_outcomes env item (media_count w)
                  (downloaded_media p0) (files p0))
        as [-> | [[data ->] | (r & len & Hopen & _ & _ & _ & ->)]]; simpl.
      * split; [done|]. apply Forall_insert; [done|]. done.
      * split; [done|]. apply Forall_insert; [done|]. done.
      * assert (Hother : item_type item <> m).
        { intros Heq. rewrite Heq in Hopen.
          by rewrite (quota_closed _ _ Hneg Hcount) in Hopen. }
        split.
        -- rewrite count_type_snoc, Hnone. unfold saved_record; cbn [rec_type].
           by rewrite decide_False.
        -- apply Forall_insert; [done|]. simpl. rewrite get0_insert.
           by rewrite decide_False.
Qed.

(** The first worker can take the items at the head of the queue one after
    the other, while the other workers stay where they are. *)
Lemma first_worker_drains (items : list queue_item) :
  forall (envs : list item_env) rest p w,
    workers p !! 0%nat = Some w -> phase w = AtLoopTest ->
    queue p = items ++ rest ->
    length envs = length items ->
    Forall (fun env => 1000 <= env_randint env <= 9999) envs ->
    exists p',
      rtc step p p' /\ queue p' = rest /\
      workers p' =
        <[0%nat := Worker (alone envs items (media_count w)
                             (downloaded_media p) (files p)).1.1 AtLoopTest]>
          (workers p) /\
      downloaded_media p'
        = (alone envs items (media_count w) (downloaded_media p) (files p)).1.2 /\
      files p' = (alone envs items (media_count w) (downloaded_media p) (files p)).2.
Proof.
  induction items as [|item items IH]; intros envs rest p w Hw Hphase Hq Hlen Hrand.
  - exists p. destruct envs; [|done]. simpl. split_and!; [done..| |done|done].
    symmetry. apply list_insert_id. rewrite Hw. f_equal.
    destruct w as [count ph]. simpl in *. by subst ph.
  - destruct envs as [|env envs]; [done|].
    apply Forall_cons in Hrand as [Henv Hrand]. simpl in Hlen.
    pose proof (lookup_lt_Some _ _ _ Hw) as Hsome.
    cbn [download_worker].
    destruct (iteration env item (media_count w) (downloaded_media p) (files p))
      as [[count ledger] fs] eqn:Hrun.
    set (p1 := set_worker 0 (Worker (media_count w) AtGet) p).
    set (p2 := {| queue := items ++ rest; downloaded_media := ledger; files := fs;
                  workers := <[0%nat := Worker count AtLoopTest]> (workers p1) |}).
    assert (Hstep1 : step p p1).
    { apply step_queue_nonempty; [done..|]. by rewrite Hq. }
    assert (Hstep2 : step p1 p2).
    { assert (Hitem : step p1
                (run_item url_path min_size_kb max_media_per_type env 0
                   (Worker (media_count w) AtGet) item (items ++ rest) p1)).
      { apply step_item; [|done|done|done].
        subst p1. simpl. by rewrite list_lookup_insert_eq. }
      unfold run_item in Hitem. simpl in Hitem. rewrite Hrun in Hitem. exact Hitem. }
    destruct (IH envs rest p2 (Worker count AtLoopTest))
      as (p' & Hsteps & Hq' & Hw' & Hl' & Hf'); [|done|done|lia|done|].
    { subst p2 p1. simpl.
      by rewrite list_lookup_insert_eq by (by rewrite length_insert). }
    exists p'. subst p2 p1. simpl in *. split_and!; [|done| |done|done].
    + eapply rtc_l; [exact Hstep1|]. eapply rtc_l; [exact Hstep2|]. exact Hsteps.
    + rewrite Hw'. by rewrite !list_insert_insert_eq.
Qed.

(** With the queue empty, the workers at the loop test return one after the
    other. *)
Lemma workers_return (todo : list worker) :
  forall done p,
    workers p = done ++ todo -> queue p = [] ->
    Forall (fun w => phase w = Exited) done ->
    Forall (fun w => phase w = AtLoopTest) todo ->
    exists p',
      rtc step p p' /\ all_joined p' /\ queue p' = [] /\
      downloaded_media p' = downloaded_media p /\ files p' = files p.
Proof.
  induction todo as [|w todo IH]; intros done p Hws Hq Hdone Htodo.
  - exists p. split_and!; [done| |done..]. unfold all_joined.
    by rewrite Hws, app_nil_r.
  - apply Forall_cons in Htodo as [Hw Htodo].
    assert (Hlookup : workers p !! length done = Some w).
    { rewrite Hws. by apply list_lookup_middle. }
    edestruct (IH (done ++ [Worker (media_count w) Exited])
                 (set_worker (length done) (Worker (media_count w) Exited) p))
      as (p' & Hsteps & Hjoined & Hq' & Hl' & Hf').
    { simpl. rewrite Hws. rewrite insert_app_r_alt by done.
      rewrite Nat.sub_diag. simpl. by rewrite <- app_assoc. }
    { done. }
    { apply Forall_app. split; [done|]. by apply Forall_singleton. }
    { done. }
    exists p'. split_and!; [|done..].
    eapply rtc_l; [|exact Hsteps]. by apply step_queue_empty.
Qed.

(** One thread can do all the work: there is an interleaving in which the
    first worker gets every item and all the workers return. *)
Lemma sequential_run n q fs0 envs :
  (0 < n)%nat ->
  length envs = length q ->
  Forall (fun env => 1000 <= env_randint env <= 9999) envs ->
  exists p,
    rtc step (start_pool n q fs0) p /\
    all_joined p /\ queue p = [] /\
    downloaded_media p = (alone envs q ∅ [] fs0).1.2 /\
    files p = (alone envs q ∅ [] fs0).2.
Proof.
  intros Hn Hlen Hrand.
  destruct (first_worker_drains q envs [] (start_pool n q fs0) (Worker ∅ AtLoopTest))
    as (p1 & Hsteps1 & Hq1 & Hw1 & Hl1 & Hf1); [|done|by rewrite app_nil_r|done..|].
  { simpl. apply lookup_replicate. split; [done|lia]. }
  simpl in Hw1, Hl1, Hf1.
  destruct (workers_return (workers p1) [] p1)
    as (p2 & Hsteps2 & Hjoined & Hq2 & Hl2 & Hf2); [done|done|done| |].
  { rewrite Hw1. apply Forall_insert; [|done]. by apply Forall_replicate. }
  exists p2. split_and!; [by etrans|done|done|congruence|congruence].
Qed.

Lemma process_item_no_answer item count ledger fs :
  iteration no_answer item count ledger fs = (count, ledger, fs).
Proof. unfold process_item. by destruct (quota_hit count (item_type item)). Qed.

(** With two workers or more and a queue that is not empty, some
    interleaving leads to a state from which no interleaving lets every
    worker return. *)
Lemma stuck_state_reachable n q fs0 :
  (2 <= n)%nat -> q <> [] ->
  exists p,
    rtc step (start_pool n q fs0) p /\
    forall p', rtc step p p' -> ~ all_joined p'.
Proof.
  intros Hn Hq.
  destruct (exists_last Hq) as (items & last & ->).
  set (envs := replicate (length items) no_answer).
  destruct (first_worker_drains items envs [last] (start_pool n (items ++ [last]) fs0)
              (Worker ∅ AtLoopTest))
    as (p1 & Hsteps1 & Hq1 & Hw1 & _).
  { simpl. apply lookup_replicate. split; [done|lia]. }
  { done. }
  { done. }
  { subst envs. by rewrite length_replicate. }
  { subst envs. apply Forall_replicate. simpl. lia. }
  simpl in Hw1.
  set (count := (alone envs items ∅ [] fs0).1.1) in Hw1.
  assert (H0 : workers p1 !! 0%nat = Some (Worker count AtLoopTest)).
  { rewrite Hw1. apply list_lookup_insert_eq. rewrite length_replicate. lia. }
  assert (H1 : workers p1 !! 1%nat = Some (Worker ∅ AtLoopTest)).
  { rewrite Hw1, list_lookup_insert_ne by done.
    apply lookup_replicate. split; [done|lia]. }
  set (p2 := set_worker 0 (Worker count AtGet) p1).
  set (p3 := set_worker 1 (Worker ∅ AtGet) p2).
  set (p4 := run_item url_path min_size_kb max_media_per_type no_answer 0
               (Worker count AtGet) last [] p3).
  assert (Hlen1 : (2 <= length (workers p1))%nat).
  { rewrite Hw1, length_insert, length_replicate. lia. }
  assert (Hstep2 : step p1 p2).
  { apply (step_queue_nonempty _ _ _ p1 0 (Worker count AtLoopTest)); [done..|].
    by rewrite Hq1. }
  assert (Hstep3 : step p2 p3).
  { apply (step_queue_nonempty _ _ _ p2 1 (Worker ∅ AtLoopTest)); [|done|].
    - subst p2. simpl. by rewrite list_lookup_insert_ne.
    - subst p2. simpl. by rewrite Hq1. }
  assert (Hstep4 : step p3 p4).
  { apply step_item; [|done| |simpl; lia].
    - subst p3 p2. simpl. rewrite list_lookup_insert_ne by done.
      apply list_lookup_insert_eq. lia.
    - subst p3 p2. simpl. by rewrite Hq1. }
  exists p4. split.
  { etrans; [exact Hsteps1|].
    eapply rtc_l; [exact Hstep2|]. eapply rtc_l; [exact Hstep3|].
    eapply rtc_l; [exact Hstep4|]. apply rtc_refl. }
  assert (Hstuck : queue p4 = [] /\
            exists w, workers p4 !! 1%nat = Some w /\ phase w = AtGet).
  { subst p4 p3 p2. unfold run_item. rewrite process_item_no_answer. simpl.
    split; [done|].
    exists (Worker ∅ AtGet). split; [|done].
    rewrite list_lookup_insert_ne by done.
    apply list_lookup_insert_eq. rewrite length_insert. lia. }
  clearbody p4. clear -Hstuck.
  intros p' Hsteps.
  assert (Hstuck' : queue p' = [] /\
            exists w, workers p' !! 1%nat = Some w /\ phase w = AtGet).
  { induction Hsteps as [p | p pa pb Hstep _ IH]; [done|].
    apply IH. clear IH. destruct Hstuck as (Hempty & w1 & Hw1 & Hph1).
    destruct Hstep as [p i w Hw Hph _ | p i w _ _ Hne | p i w item rest env _ _ Hq _].
    - split; [done|]. simpl. destruct (decide (i = 1%nat)) as [-> | Hi].
      + rewrite Hw1 in Hw. injection Hw as <-. congruence.
      + exists w1. by rewrite list_lookup_insert_ne.
    - done.
    - congruence. }
  destruct Hstuck' as (_ & w & Hw & Hph). intros Hjoined.
  pose proof (Forall_lookup_1 _ _ _ _ Hjoined Hw) as Hexited. simpl in Hexited.
  congruence.
Qed.

End PoolMore.

(** ** More on the manifest and on [main] *)

Lemma zip_members_lookup fs path :
  zip_members fs !! path =
  if decide (last path = Some "media.zip") then None else fs !! path.
Proof.
  unfold zip_members. case_decide as Hlast.
  - apply map_lookup_filter_None. right. intros f _ Hkeep. by apply Hkeep.
  - apply option_eq. intros f. rewrite map_lookup_filter_Some.
    split; [by intros [? _] | by intros ?].
Qed.

Lemma zip_members_insert_archive fs f :
  zip_members (<[ ["media.zip"] := f ]> fs) = zip_members fs.
Proof.
  apply map_eq. intros path. rewrite !zip_members_lookup.
  case_decide as Hlast; [done|].
  rewrite lookup_insert_ne; [done|]. intros <-. by apply Hlast.
Qed.

(** X18. [save_results] writes [results.json] with the ledger and
    [results.csv] with the header and one row of five cells per record,
    leaves every other file of the directory as it is, and makes
    [media.zip] hold exactly the files of the directory after that whose
    name is not [media.zip], with their contents: the manifest files just
    written and the files of earlier runs included, any file named
    [media.zip] in a subfolder left out. *)
Theorem save_results_archives_the_directory ledger fs :
  save_results ledger fs !! ["results.json"] = Some (FileJson ledger) /\
  (exists rows,
     save_results ledger fs !! ["results.csv"]
       = Some (FileCsv (["url"; "type"; "size_kb"; "filename"; "source_page"] :: rows)) /\
     length rows = length ledger /\
     Forall (fun row => length row = 5%nat) rows) /\
  (forall path,
     path <> ["results.json"] -> path <> ["results.csv"] -> path <> ["media.zip"] ->
     save_results ledger fs !! path = fs !! path) /\
  (exists members,
     save_results ledger fs !! ["media.zip"] = Some (FileZip members) /\
     forall path,
       members !! path =
       if decide (last path = Some "media.zip") then None
       else save_results ledger fs !! path).
Proof.
  unfold save_results. split_and!.
  - rewrite lookup_insert_ne by done. rewrite lookup_insert_ne by done.
    by rewrite lookup_insert_eq.
  - exists (map csv_row ledger). split_and!.
    + rewrite lookup_insert_ne by done. by rewrite lookup_insert_eq.
    + by rewrite length_map.
    + apply Forall_forall. intros row Hrow.
      apply list_elem_of_fmap in Hrow as (r & -> & _). done.
  - intros path Hjson Hcsv Hzip. by rewrite !lookup_insert_ne.
  - eexists. split; [by rewrite lookup_insert_eq|].
    intros path. rewrite zip_members_lookup. case_decide as Hlast; [done|].
    rewrite (lookup_insert_ne _ ["media.zip"]); [done|].
    intros <-. by apply Hlast.
Qed.

(** X19. Writing the manifest again changes nothing: [save_results] run on
    the directory it has just written leaves it as it is, the archive
    holding neither itself nor an older archive. *)
Theorem save_results_twice ledger fs :
  save_results ledger (save_results ledger fs) = save_results ledger fs.
Proof.
  unfold save_results.
  set (json := FileJson ledger). set (csv := FileCsv _).
  set (fs2 := <[ ["results.csv"] := csv ]> (<[ ["results.json"] := json ]> fs)).
  set (zip := FileZip (zip_members fs2)).
  assert (Hagain :
    <[ ["results.csv"] := csv ]> (<[ ["results.json"] := json ]> (<[ ["media.zip"] := zip ]> fs2))
    = <[ ["media.zip"] := zip ]> fs2).
  { apply map_eq. intros path. unfold fs2. rewrite !lookup_insert.
    repeat case_decide; simplify_eq; done. }
  rewrite Hagain, zip_members_insert_archive. apply insert_insert_eq.
Qed.

Section MainMore.

Variable urljoin : string -> string -> option string.
Variable netloc : string -> string.
Variable url_path : string -> string.
Variable get_page_content : string -> option soup.

(** The program's functions at the parameters of this section. *)
Local Abbreviation the_crawl := (main_crawl urljoin netloc get_page_content).
Local Abbreviation pool_of := (main_pool urljoin netloc url_path get_page_content).
Local Abbreviation run_of := (main_run urljoin netloc url_path get_page_content).

(** X20. The manifest matches the directory: after any run of [main],
    [results.json] holds the ledger, the file of each of its records is in
    the output directory, and that file is in [media.zip] with the same
    contents unless it is itself named [media.zip]. *)
Theorem manifest_matches_the_directory cfg fs0 ledger fs :
  run_of cfg fs0 ledger fs ->
  fs !! ["results.json"] = Some (FileJson ledger) /\
  forall r,
    r ∈ ledger ->
    exists data members,
      fs !! record_path r = Some (FileBytes data) /\
      fs !! ["media.zip"] = Some (FileZip members) /\
      members !! record_path r =
        if decide (rec_filename r = "media.zip") then None
        else Some (FileBytes data).
Proof.
  intros Hrun. destruct Hrun as [p (st & _ & Hsteps) _].
  unfold save_results. split.
  - rewrite lookup_insert_ne by done. rewrite lookup_insert_ne by done.
    by rewrite lookup_insert_eq.
  - intros r Hr.
    destruct (records_have_files _ _ _ _ _ _ _ Hsteps r Hr) as [data Hfile].
    exists data. eexists. split_and!.
    + by rewrite !lookup_insert_ne.
    + by rewrite lookup_insert_eq.
    + rewrite zip_members_lookup. unfold record_path; cbn [last].
      case_decide as Hname.
      * injection Hname as Hname. by rewrite decide_True.
      * rewrite decide_False by congruence. by rewrite !lookup_insert_ne.
Qed.

(** X21. [main] can hang: when the traversal queued two items or more, the
    pool can reach a state from which no interleaving lets every thread
    return, a thread that saw the queue non-empty waiting in [get()] for
    an item another thread took; the manifest is then never written. *)
Theorem main_can_hang cfg fs0 st :
  the_crawl cfg = Some st ->
  (2 <= length (download_queue st))%nat ->
  exists p,
    pool_of cfg fs0 p /\
    forall p',
      rtc (pool_step url_path (cfg_min_size_kb cfg) (cfg_max_per_type cfg)) p p' ->
      ~ all_joined p'.
Proof.
  intros Hcrawl Hlen.
  destruct (stuck_state_reachable url_path (cfg_min_size_kb cfg) (cfg_max_per_type cfg)
              (thread_count (download_queue st)) (download_queue st) fs0)
    as (p & Hsteps & Hstuck).
  - unfold thread_count, MAX_THREADS. lia.
  - intros Hempty. rewrite Hempty in Hlen. simpl in Hlen. lia.
  - exists p. split; [|done]. by exists st.
Qed.

(** X22. [main] can always finish: whatever the environments of the
    iterations, there is a run in which one thread gets every item, and its
    ledger and files are the ones [download_worker] leaves when run alone
    on the whole queue of the traversal. *)
Theorem main_can_run_one_thread cfg fs0 st envs :
  the_crawl cfg = Some st ->
  length envs = length (download_queue st) ->
  Forall (fun env => 1000 <= env_randint env <= 9999) envs ->
  run_of cfg fs0
    (download_worker url_path (cfg_min_size_kb cfg) (cfg_max_per_type cfg)
       envs (download_queue st) ∅ [] fs0).1.2
    (save_results
       (download_worker url_path (cfg_min_size_kb cfg) (cfg_max_per_type cfg)
          envs (download_queue st) ∅ [] fs0).1.2
       (download_worker url_path (cfg_min_size_kb cfg) (cfg_max_per_type cfg)
          envs (download_queue st) ∅ [] fs0).2).
Proof.
  intros Hcrawl Hlen Hrand.
  assert (Hpool : exists p,
    rtc (pool_step url_path (cfg_min_size_kb cfg) (cfg_max_per_type cfg))
        (start_pool (thread_count (download_queue st)) (download_queue st) fs0) p /\
    all_joined p /\
    downloaded_media p =
      (download_worker url_path (cfg_min_size_kb cfg) (cfg_max_per_type cfg)
         envs (download_queue st) ∅ [] fs0).1.2 /\
    files p =
      (download_worker url_path (cfg_min_size_kb cfg) (cfg_max_per_type cfg)
         envs (download_queue st) ∅ [] fs0).2).
  { destruct (download_queue st) as [|item q] eqn:Hq.
    - exists (start_pool 0 [] fs0). split_and!; [apply rtc_refl|by apply Forall_nil|..].
      + by destruct envs.
      + by destruct envs.
    - destruct (sequential_run url_path (cfg_min_size_kb cfg) (cfg_max_per_type cfg)
                  (thread_count (item :: q)) (item :: q) fs0 envs)
        as (p & Hsteps & Hjoined & _ & Hl & Hf); [|done|done|].
      + unfold thread_count, MAX_THREADS. simpl length. lia.
      + by exists p. }
  destruct Hpool as (p & Hsteps & Hjoined & Hl & Hf).
  rewrite <- Hl, <- Hf. apply main_run_intro; [|done]. by exists st.
Qed.

End MainMore.

(** ** The answers to the prompts *)

(** X23. Whatever is typed at the media prompt, at least one type is
    chosen and none twice; anything but [1] to [5] chooses images alone. *)
Theorem media_map_always_chooses choice :
  media_map choice <> [] /\
  NoDup (media_map choice) /\
  (choice ∉ ["1"; "2"; "3"; "4"; "5"] -> media_map choice = [Images]).
Proof.
  unfold media_map.
  destruct (String.eqb_spec choice "1") as [-> | H1];
    [split_and!; [done|apply NoDup_singleton|done]|].
  destruct (String.eqb_spec choice "2") as [-> | H2].
  { split_and!; [done|apply NoDup_singleton|].
    intros Hout. exfalso. apply Hout. right; left. }
  destruct (String.eqb_spec choice "3") as [-> | H3].
  { split_and!; [done|apply NoDup_singleton|].
    intros Hout. exfalso. apply Hout. right; right; left. }
  destruct (String.eqb_spec choice "4") as [-> | H4].
  { split_and!; [done|apply NoDup_singleton|].
    intros Hout. exfalso. apply Hout. right; right; right; left. }
  destruct (String.eqb_spec choice "5") as [-> | H5].
  { split_and!; [done| |].
    - apply (NoDup_fmap_1 media_type_code). vm_compute.
      repeat (apply NoDup_cons; split; [rewrite ?elem_of_cons, elem_of_nil; lia|]).
      apply NoDup_nil_2.
    - intros Hout. exfalso. apply Hout. right; right; right; right; left. }
  split_and!; [done|apply NoDup_singleton|done].
Qed.

Lemma lower_ascii_y c : PyStr.lower_ascii c = "y"%char -> c = "y"%char \/ c = "Y"%char.
Proof.
  destruct c as [[] [] [] [] [] [] [] []]; vm_compute; intros H;
    first [discriminate H | by left | by right].
Qed.

(** X24. The same-domain prompt is answered yes by [y] or [Y] alone: any
    other answer, [yes] or an answer with a space included, turns the
    restriction off. *)
Theorem same_domain_needs_a_bare_y answer :
  same_domain_answer answer = true <-> answer = "y" \/ answer = "Y".
Proof.
  unfold same_domain_answer. rewrite String.eqb_eq. split.
  - destruct answer as [|c [|c' rest]]; [done| |done].
    simpl. intros Hy. injection Hy as Hy.
    destruct (lower_ascii_y c Hy) as [-> | ->]; [by left | by right].
  - by intros [-> | ->].
Qed.

(** ** Runs of the pool and of [main] on the gallery *)

Lemma pool_only_adds_witness :
  exists p,
    rtc (pool_step SimpleUrl.path 0 {[ Images := 1 ]})
        (start_pool 2 gallery_queue old_directory) p /\
    ["old.txt"] ∈ dom (files p).
Proof.
  destruct (gallery_pool old_directory Example.two_threads) as [p|] eqn:Hrun;
    [|by vm_compute in Hrun].
  apply run_schedule_sound in Hrun. exists p. split; [exact Hrun|].
  destruct (pool_only_adds SimpleUrl.path 0 {[ Images := 1 ]} _ _ Hrun) as [_ Hdom].
  apply Hdom. by vm_compute.
Defined.

Lemma every_record_has_its_file_witness :
  exists p,
    rtc (pool_step SimpleUrl.path 0 {[ Images := 1 ]})
        (start_pool 2 gallery_queue ∅) p /\
    forall r,
      r ∈ downloaded_media p ->
      exists data, files p !! record_path r = Some (FileBytes data).
Proof.
  destruct (gallery_pool ∅ Example.two_threads) as [p|] eqn:Hrun;
    [|by vm_compute in Hrun].
  apply run_schedule_sound in Hrun. exists p. split; [exact Hrun|].
  exact (every_record_has_its_file SimpleUrl.path 0 {[ Images := 1 ]}
           2%nat gallery_queue ∅ p Hrun).
Defined.

Lemma records_come_from_the_queue_witness :
  exists p,
    rtc (pool_step SimpleUrl.path 0 {[ Images := 1 ]})
        (start_pool 2 gallery_queue ∅) p /\
    (length (downloaded_media p) + length (queue p) <= length gallery_queue)%nat.
Proof.
  destruct (gallery_pool ∅ Example.two_threads) as [p|] eqn:Hrun;
    [|by vm_compute in Hrun].
  apply run_schedule_sound in Hrun. exists p. split; [exact Hrun|].
  exact (proj2 (records_come_from_the_queue SimpleUrl.path 0 {[ Images := 1 ]}
                  2%nat gallery_queue ∅ p Hrun)).
Defined.

Lemma quota_holds_per_thread_witness :
  0 < get0 {[ Images := 1 ]} Images /\
  exists p,
    rtc (pool_step SimpleUrl.path 0 {[ Images := 1 ]})
        (start_pool 2 gallery_queue ∅) p /\
    Z.of_nat (count_type Images (downloaded_media p))
      <= Z.of_nat 2 * get0 {[ Images := 1 ]} Images.
Proof.
  assert (Hlimit : 0 < get0 {[ Images := 1 ]} Images) by (by vm_compute).
  split; [exact Hlimit|].
  destruct (gallery_pool ∅ Example.two_threads) as [p|] eqn:Hrun;
    [|by vm_compute in Hrun].
  apply run_schedule_sound in Hrun. exists p. split; [exact Hrun|].
  exact (quota_holds_per_thread SimpleUrl.path 0 {[ Images := 1 ]} Images
           2%nat gallery_queue ∅ p Hlimit Hrun).
Defined.

Lemma zero_is_unlimited_negative_is_none_witness :
  get0 {[ Images := -1 ]} Images < 0 /\
  exists p,
    rtc (pool_step SimpleUrl.path 0 {[ Images := -1 ]})
        (start_pool 2 gallery_queue ∅) p /\
    queue p = [] /\
    count_type Images (downloaded_media p) = 0%nat.
Proof.
  assert (Hneg : get0 {[ Images := -1 ]} Images < 0) by (by vm_compute).
  split; [exact Hneg|].
  destruct (run_schedule SimpleUrl.path 0 {[ Images := -1 ]} Example.two_threads
              (start_pool 2 gallery_queue ∅)) as [p|] eqn:Hrun;
    [|by vm_compute in Hrun].
  assert (Hempty : queue <$> run_schedule SimpleUrl.path 0 {[ Images := -1 ]}
                     Example.two_threads (start_pool 2 gallery_queue ∅) = Some [])
    by (vm_compute; reflexivity).
  rewrite Hrun in Hempty. injection Hempty as Hempty.
  apply run_schedule_sound in Hrun. exists p. split; [exact Hrun|].
  split; [exact Hempty|].
  exact (proj2 (zero_is_unlimited_negative_is_none SimpleUrl.path 0
                  {[ Images := -1 ]} Images) Hneg 2%nat gallery_queue ∅ p Hrun).
Defined.

Lemma same_name_overwrites_witness :
  declared_size_kb (Response (HeaderInt 2048) "A") = Some (2048 # 1024)%Q /\
  declared_size_kb (Response (HeaderInt 2048) "B") = Some (2048 # 1024)%Q /\
  record_path (saved_record SimpleUrl.path (logo_served "A") logo_a (2048 # 1024))
    = record_path (saved_record SimpleUrl.path (logo_served "B") logo_b (2048 # 1024)) /\
  length (download_worker SimpleUrl.path 0 ∅
            [logo_served "A"; logo_served "B"] [logo_a; logo_b] ∅ [] ∅).1.2 = 2%nat /\
  (download_worker SimpleUrl.path 0 ∅
     [logo_served "A"; logo_served "B"] [logo_a; logo_b] ∅ [] ∅).2
    = {[ ["images"; "logo.png"] := FileBytes "B" ]}.
Proof.
  assert (Hsize : forall body,
            declared_size_kb (Response (HeaderInt 2048) body) = Some (2048 # 1024)%Q)
    by (intros body; apply declared_size_exact; [reflexivity|reflexivity]).
  assert (Hpath :
    record_path (saved_record SimpleUrl.path (logo_served "A") logo_a (2048 # 1024))
    = record_path (saved_record SimpleUrl.path (logo_served "B") logo_b (2048 # 1024)))
    by (vm_compute; reflexivity).
  split; [apply Hsize|]. split; [apply Hsize|]. split; [exact Hpath|].
  destruct (same_name_overwrites SimpleUrl.path 0 ∅
              (logo_served "A") (logo_served "B") logo_a logo_b
              (Response (HeaderInt 2048) "A") (Response (HeaderInt 2048) "B")
              (2048 # 1024)%Q (2048 # 1024)%Q ∅ [] ∅) as [Hledger Hfiles];
    try reflexivity; try apply Hsize; try exact Hpath;
    try (apply Qle_declared; lia).
  split.
  - by rewrite Hledger.
  - rewrite Hfiles. vm_compute. reflexivity.
Defined.

Lemma manifest_matches_the_directory_witness :
  exists ledger fs,
    main_run SimpleUrl.urljoin SimpleUrl.netloc SimpleUrl.path Example.gallery
      Example.one_image ∅ ledger fs /\
    fs !! ["results.json"] = Some (FileJson ledger).
Proof.
  destruct (Example.main_gallery Example.one_image Example.two_threads)
    as [[ledger fs]|] eqn:Hrun; [|by vm_compute in Hrun].
  apply main_schedule_sound in Hrun. exists ledger, fs. split; [exact Hrun|].
  exact (proj1 (manifest_matches_the_directory SimpleUrl.urljoin SimpleUrl.netloc
                  SimpleUrl.path Example.gallery Example.one_image ∅ ledger fs Hrun)).
Defined.

(** The traversal of the gallery queues its two images. *)
Lemma gallery_queue_length st :
  main_crawl SimpleUrl.urljoin SimpleUrl.netloc Example.gallery Example.one_image
    = Some st ->
  length (download_queue st) = 2%nat.
Proof.
  intros Hst.
  assert (Hlen : (fun st => length (download_queue st)) <$>
                 main_crawl SimpleUrl.urljoin SimpleUrl.netloc Example.gallery
                   Example.one_image = Some 2%nat)
    by (vm_compute; reflexivity).
  rewrite Hst in Hlen. by injection Hlen.
Qed.

Lemma main_can_hang_witness :
  exists st p,
    main_crawl SimpleUrl.urljoin SimpleUrl.netloc Example.gallery Example.one_image
      = Some st /\
    (2 <= length (download_queue st))%nat /\
    main_pool SimpleUrl.urljoin SimpleUrl.netloc SimpleUrl.path Example.gallery
      Example.one_image ∅ p /\
    ~ all_joined p.
Proof.
  destruct (main_crawl_total SimpleUrl.urljoin SimpleUrl.netloc Example.gallery
              Example.one_image) as [st Hst].
  assert (Hlen : (2 <= length (download_queue st))%nat)
    by (rewrite (gallery_queue_length st Hst); lia).
  destruct (main_can_hang SimpleUrl.urljoin SimpleUrl.netloc SimpleUrl.path
              Example.gallery Example.one_image ∅ st Hst Hlen) as (p & Hpool & Hstuck).
  exists st, p. split; [exact Hst|]. split; [exact Hlen|]. split; [exact Hpool|].
  apply Hstuck. apply rtc_refl.
Defined.

Lemma main_can_run_one_thread_witness :
  exists st ledger fs,
    main_crawl SimpleUrl.urljoin SimpleUrl.netloc Example.gallery Example.one_image
      = Some st /\
    main_run SimpleUrl.urljoin SimpleUrl.netloc SimpleUrl.path Example.gallery
      Example.one_image ∅ ledger fs.
Proof.
  destruct (main_crawl_total SimpleUrl.urljoin SimpleUrl.netloc Example.gallery
              Example.one_image) as [st Hst].
  exists st. eexists. eexists. split; [exact Hst|].
  apply (main_can_run_one_thread SimpleUrl.urljoin SimpleUrl.netloc SimpleUrl.path
           Example.gallery Example.one_image ∅ st
           [Example.image_served; Example.image_served] Hst).
  - by rewrite (gallery_queue_length st Hst).
  - repeat (apply Forall_cons; split; [simpl; lia|]). apply Forall_nil_2.
Defined.
